(** * MGISA landform mapping scripts: the decision logic, embedded and verified

    The scripts are thin pipelines around a GIS toolbox; what is modelled here
    is the logic they compute themselves:

    - [Ensemble]: [ensemble_E5_classification.py], the weighted vote
      ([pick_ensemble_label]), the metric tables ([read_metric_table]) and
      the per-row part of [main] with the WATER BODY elevation rule;
    - [Ensemble64]: the weighted vote and the weight tables
      ([normalize_per_class], [build_weight_dict]) on doubles;
    - [Accuracy]: the metric formulas of [accuracy_1pass_assessment.py];
    - [Correlation]: the pair selection of [analyze_correlation.py].

    Numbers.  Two readings of a Python float are used.  In [Ensemble],
    [Accuracy] and [Correlation] a float is a rational [Q]: arithmetic is
    exact and every value is finite; the one place where the source tests
    for NaN ([read_metric_table]) has an explicit NaN cell.  This reading
    carries the statements that do not depend on rounding.  In [Ensemble64]
    a float is an IEEE 754 double ([B64], on [SpecFloat] of the Standard
    Library): every operation is rounded to nearest, infinities and NaN are
    values, and a comparison with NaN is false.  The weighted vote and the
    normalization of the weights, whose outcome depends on rounding, are
    stated in this reading.

    Python dicts are association lists in insertion order with first-match
    lookup; their keys are distinct, which is a hypothesis wherever a proof
    depends on it. *)

From Stdlib Require Import QArith Qabs ZArith List String Ascii Bool Lia Lqa.
From Stdlib Require Import Sorted.
From Stdlib Require Import Floats.SpecFloat.
Import ListNotations.
Local Open Scope Q_scope.

(** ** Python helpers shared by the scripts *)

Module Py.

(** A call either returns or raises; the only exception the modelled code can
    raise itself is the [IndexError] of [xs[0]] on an empty list. *)
Inductive res (A : Type) : Type :=
| Ret (a : A)
| IndexError.
Arguments Ret {A} a.
Arguments IndexError {A}.

Definition bind {A B} (r : res A) (k : A -> res B) : res B :=
  match r with
  | Ret a => k a
  | IndexError => IndexError
  end.

Notation "x <- r ;; k" := (bind r (fun x => k))
  (at level 61, r at next level, right associativity).

(** [xs[0]] *)
Definition item0 {A} (xs : list A) : res A :=
  match xs with
  | x :: _ => Ret x
  | [] => IndexError
  end.

(** [a < b] and [a <= b] on floats, as booleans. *)
Definition Qltb (a b : Q) : bool := negb (Qle_bool b a).
Definition Qleb (a b : Q) : bool := Qle_bool a b.

(** A dict is the list of its items in insertion order. *)
Definition dict (V : Type) : Type := list (string * V).

(** [d.get(k)] *)
Fixpoint dget {V} (d : dict V) (k : string) : option V :=
  match d with
  | [] => None
  | (k', v) :: d' => if String.eqb k' k then Some v else dget d' k
  end.

(** [d[k] = f(d.get(k))]: an existing key keeps its place, a new key is
    appended. *)
Fixpoint dupd {V} (d : dict V) (k : string) (f : option V -> V) : dict V :=
  match d with
  | [] => [(k, f None)]
  | (k', v) :: d' =>
      if String.eqb k' k then (k', f (Some v)) :: d'
      else (k', v) :: dupd d' k f
  end.

Definition keys {V} (d : dict V) : list string := map fst d.
Definition values {V} (d : dict V) : list V := map snd d.

(** [sum(xs)] on floats: a left fold starting from [0]. *)
Definition sum (xs : list Q) : Q := fold_left Qplus xs 0.

(** [max(x, *xs)]: the first maximal element is kept. *)
Definition max_from (x : Q) (xs : list Q) : Q :=
  fold_left (fun m y => if Qltb m y then y else m) xs x.

(** [max(xs, default=d)] *)
Definition max_default (xs : list Q) (d : Q) : Q :=
  match xs with
  | [] => d
  | x :: xs' => max_from x xs'
  end.

(** [max(xs, key=key)] on a non-empty list given as head and tail. *)
Definition max_by {A} (key : A -> Q) (x : A) (xs : list A) : A :=
  fold_left (fun m y => if Qltb (key m) (key y) then y else m) xs x.

(** [min(x, *xs)] on ranks. *)
Definition min_from (x : nat) (xs : list nat) : nat :=
  fold_left (fun m y => if Nat.ltb y m then y else m) xs x.

(** [xs.index(x)], for an [x] that is in [xs]; [None] where Python raises
    [ValueError] (the callers test [x in xs] first). *)
Fixpoint index (xs : list string) (x : string) : option nat :=
  match xs with
  | [] => None
  | y :: ys => if String.eqb y x then Some O
               else option_map S (index ys x)
  end.

(** [sorted(xs, key=key)]: a stable sort, here by insertion from the right.
    [x] stood before every element of [xs] in the input, so it goes before
    the first element whose key is not strictly smaller. *)
Fixpoint insert_by {A} (key : A -> nat) (x : A) (xs : list A) : list A :=
  match xs with
  | [] => [x]
  | y :: ys => if Nat.ltb (key y) (key x) then y :: insert_by key x ys
               else x :: y :: ys
  end.

Definition sorted_by {A} (key : A -> nat) (xs : list A) : list A :=
  fold_right (insert_by key) [] xs.

(** ["sep".join(xs)] *)
Fixpoint join (sep : string) (xs : list string) : string :=
  match xs with
  | [] => EmptyString
  | [x] => x
  | x :: xs' => (x ++ sep ++ join sep xs')%string
  end.

End Py.

(** ** ensemble_E5_classification.py *)

Module Ensemble.
Import Py.

(** *** Parameters of the script *)

Definition CLASS_FIELDS : dict string :=
  [ ("RTv11A2D50",  "RTv11A2D50_Classname");
    ("RTv11A2D60",  "RTv11A2D60_Classname");
    ("SVMv11A2D50", "SVMv11A2D50_Classname");
    ("SVMv11A2D60", "SVMv11A2D60_Classname") ]%string.

Definition WEIGHT_POWER : Q := 1.
Definition USE_LOWCONF_FALLBACK : bool := true.
Definition TAU : Q := 55 # 100.
Definition CLF_PRIORITY : list string :=
  [ "SVMv11A2D60"; "RTv11A2D60"; "SVMv11A2D50"; "RTv11A2D50" ]%string.
Definition E5_LEN : nat := 50.
Definition E5_SRC_LEN : nat := 60.
Definition ENABLE_WB_ELEV_RULE : bool := true.
Definition SVM_RIVER_CLF : string := "SVMv11A2D60".
Definition CLS_WATER : string := "WATER BODY".
Definition ELEV_THRESH : Q := 220.

(** The two tolerances written as literals in [pick_ensemble_label]. *)
Definition score_tol : Q := 1 # 1000000000000.        (* 1e-12 *)
Definition single_tol : Q := 1 # 1000000000000000.    (* 1e-15 *)

(** *** Values *)

(** A prediction is [None], the empty string or a class name. *)
Definition pred : Type := option string.

(** Truth value of a prediction: [None] and [""] are false. *)
Definition truthy (p : pred) : bool :=
  match p with
  | Some s => negb (String.eqb s "")
  | None => false
  end.

(** [p == q] on predictions. *)
Definition pred_eqb (p q : pred) : bool :=
  match p, q with
  | Some a, Some b => String.eqb a b
  | None, None => true
  | _, _ => false
  end.

(** [Wnorm[class][clf]] *)
Definition weights : Type := dict (dict Q).

(** [Wnorm.get(cls, {}).get(clf, 0.0)]; the keys of a weight table are
    strings, so [None] finds nothing. *)
Definition wget (W : weights) (cls : pred) (clf : string) : Q :=
  match cls with
  | None => 0
  | Some c =>
      match dget W c with
      | Some d => match dget d clf with
                  | Some w => w
                  | None => 0
                  end
      | None => 0
      end
  end.

(** *** read_metric_table *)

(** What [float(val)] gives when it does not raise. *)
Inductive fval : Type :=
| FNum (q : Q)
| FNaN.

(** A value read from the metric column. *)
Inductive cell : Type :=
| CNull                  (* None *)
| CFloat (f : fval)      (* a number of a DOUBLE or FLOAT field *)
| CText (s : string).    (* the value of a TEXT field *)

Section ReadMetric.

(** [float(s)] on a string: [None] where it raises [ValueError]. *)
Variable parse_float : string -> option fval.

(** [float(val)], [None] where it raises. *)
Definition to_float (c : cell) : option fval :=
  match c with
  | CNull => None
  | CFloat f => Some f
  | CText s => parse_float s
  end.

(** The [try] block: the value of [v] after it. *)
Definition metric_value (c : cell) : Q :=
  match to_float c with
  | Some (FNum q) => q
  | Some FNaN => 0
  | None => 0
  end.

(** [max(0.0, v)] *)
Definition clamp0 (v : Q) : Q := if Qltb 0 v then v else 0.

(** [str(cls)] of the class cell. *)
Definition str_cls (c : option string) : string :=
  match c with
  | Some s => s
  | None => "None"
  end.

(** The rows are the pairs the search cursor yields. *)
Definition read_metric_table (rows : list (option string * cell)) : dict Q :=
  fold_left (fun W r => dupd W (str_cls (fst r)) (fun _ => clamp0 (metric_value (snd r))))
            rows [].

End ReadMetric.

(** *** pick_ensemble_label *)

(** The two [defaultdict]s filled by the first loop. *)
Record tally : Type := {
  score : dict Q;
  voters_by_class : dict (list (string * Q))
}.

Definition empty_tally : tally := {| score := []; voters_by_class := [] |}.

(** [voters_by_class[c]]: a missing key reads as the empty list. *)
Definition vget (v : dict (list (string * Q))) (c : string) : list (string * Q) :=
  match dget v c with
  | Some l => l
  | None => []
  end.

(** One turn of [for clf, cls in preds.items()]. *)
Definition vote (W : weights) (t : tally) (item : string * pred) : tally :=
  let clf := fst item in
  match snd item with
  | Some c =>
      if String.eqb c "" then t
      else
        let w := wget W (Some c) clf in
        {| score := dupd (score t) c
                      (fun o => match o with Some s => s + w | None => 0 + w end);
           voters_by_class := dupd (voters_by_class t) c
                      (fun o => match o with Some l => l ++ [(clf, w)] | None => [(clf, w)] end) |}
  | None => t
  end.

Definition count_votes (W : weights) (preds : dict pred) : tally :=
  fold_left (vote W) preds empty_tally.

(** [[c for c, s in score.items() if abs(s - max_score) < 1e-12]] *)
Definition winners_of (sc : dict Q) (max_score : Q) : list string :=
  map fst (filter (fun cs => Qltb (Qabs (snd cs - max_score)) score_tol) sc).

(** [max((w for (_clf, w) in voters_by_class[c]), default=0.0)] *)
Definition top_single (v : dict (list (string * Q))) (c : string) : Q :=
  max_default (map snd (vget v c)) 0.

(** One turn of [for c in winners] on the pair [(best_w, tb1_candidates)]. *)
Definition tb1_step (v : dict (list (string * Q))) (st : Q * list string) (c : string)
  : Q * list string :=
  let t := top_single v c in
  if Qltb (fst st + single_tol) t then (t, [c])
  else if Qleb (Qabs (t - fst st)) single_tol then (fst st, snd st ++ [c])
  else st.

Definition tb1_scan (v : dict (list (string * Q))) (winners : list string) : Q * list string :=
  fold_left (tb1_step v) winners (-(1), []).

Definition tb1_candidates (v : dict (list (string * Q))) (winners : list string) : list string :=
  snd (tb1_scan v winners).

(** [clf_priority_order.index(c) if c in clf_priority_order else 999] *)
Definition priority_key (clf_priority_order : list string) (c : string) : nat :=
  match index clf_priority_order c with
  | Some i => i
  | None => 999
  end.

Definition best_priority_rank_for_class (v : dict (list (string * Q)))
    (clf_priority_order : list string) (c : string) : nat :=
  let voters := map fst (vget v c) in
  let ranks := flat_map (fun clf => match index clf_priority_order clf with
                                    | Some i => [i]
                                    | None => []
                                    end) voters in
  match ranks with
  | [] => 999
  | r :: rs => min_from r rs
  end.

(** The winner before the fallback. *)
Definition tie_break (v : dict (list (string * Q))) (clf_priority_order : list string)
    (winners : list string) : res string :=
  match winners with
  | [w] => Ret w
  | _ =>
      match tb1_candidates v winners with
      | [c] => Ret c
      | tb1 => item0 (sorted_by (best_priority_rank_for_class v clf_priority_order) tb1)
      end
  end.

(** [[clf for clf, pred in preds.items() if pred == winner]] *)
Definition predicting (preds : dict pred) (winner : pred) : list string :=
  map fst (filter (fun it => pred_eqb (snd it) winner) preds).

(** [sum(Wnorm.get(winner, {}).get(clf, 0.0) for clf, pred in preds.items()
    if pred == winner)] *)
Definition weight_behind (W : weights) (preds : dict pred) (winner : pred) : Q :=
  sum (map (wget W winner) (predicting preds winner)).

(** The body of [if use_lowconf and max_score < tau]. *)
Definition lowconf_fallback (W : weights) (preds : dict pred)
    (clf_priority_order : list string) (v : dict (list (string * Q)))
    (winner : string) : res (pred * Q) :=
  best_clf <- match vget v winner with
              | t :: ts => Ret (fst (max_by snd t ts))
              | [] => item0 clf_priority_order
              end ;;
  let winner' := match dget preds best_clf with
                 | Some p => p
                 | None => Some winner
                 end in
  Ret (winner', weight_behind W preds winner').

Definition sources (preds : dict pred) (clf_priority_order : list string) (winner : pred)
  : list string :=
  sorted_by (priority_key clf_priority_order) (predicting preds winner).

Definition pick_ensemble_label (preds : dict pred) (Wnorm : weights)
    (clf_priority_order : list string) (use_lowconf : bool) (tau : Q)
  : res (pred * list string * Q) :=
  let t := count_votes Wnorm preds in
  match values (score t) with
  | [] => Ret (None, [], 0)
  | s :: ss =>
      let max_score := max_from s ss in
      let winners := winners_of (score t) max_score in
      winner <- tie_break (voters_by_class t) clf_priority_order winners ;;
      wm <- (if use_lowconf && Qltb max_score tau
             then lowconf_fallback Wnorm preds clf_priority_order (voters_by_class t) winner
             else Ret (Some winner, max_score)) ;;
      Ret (fst wm, sources preds clf_priority_order (fst wm), snd wm)
  end.

(** *** The row loop of main *)

(** [None if val in (None, "",) else str(val)] *)
Definition field_pred (val : option string) : pred :=
  match val with
  | None => None
  | Some s => if String.eqb s "" then None else Some s
  end.

(** The values read from the four prediction fields become the dict
    [preds], falsy entries dropped. *)
Definition row_preds (preds_vals : list (option string)) : dict pred :=
  filter (fun kv => truthy (snd kv))
         (map (fun fv => (fst (fst fv), field_pred (snd fv)))
              (combine CLASS_FIELDS preds_vals)).

(** [elev_by_oid.get(oid, None)]: the mean may be [None] for a stored key. *)
Fixpoint elev_get (elev_by_oid : list (Z * option Q)) (oid : Z) : option Q :=
  match elev_by_oid with
  | [] => None
  | (k, z) :: rest => if Z.eqb k oid then z else elev_get rest oid
  end.

(** The three values written to [E5], [E5_src] and [E5_score]. *)
Definition written : Type := (option string * option string * option Q)%type.

Definition wb_override (Wnorm : weights) (clf_priority_order : list string)
    (preds : dict pred) (mean_z : option Q) (r : pred * list string * Q)
  : pred * list string * Q :=
  match mean_z with
  | Some z =>
      if Qleb z ELEV_THRESH then
        if match dget preds SVM_RIVER_CLF with
           | Some p => pred_eqb p (Some CLS_WATER)
           | None => false
           end
        then (Some CLS_WATER,
              sources preds clf_priority_order (Some CLS_WATER),
              weight_behind Wnorm preds (Some CLS_WATER))
        else r
      else r
  | None => r
  end.

Definition write_row (r : pred * list string * Q) : written :=
  let '(winner, src_clfs, sc) := r in
  (if truthy winner then winner else None,
   match src_clfs with
   | [] => None
   | _ => Some (join "+" src_clfs)
   end,
   Some sc).

(** One turn of [for row in ucur], from the row's OID and prediction values
    to the written values. *)
Definition process_row (enable_wb use_lowconf : bool) (tau : Q) (Wnorm : weights)
    (elev_by_oid : list (Z * option Q)) (oid : Z) (preds_vals : list (option string))
  : res written :=
  let preds := row_preds preds_vals in
  r <- pick_ensemble_label preds Wnorm CLF_PRIORITY use_lowconf tau ;;
  let r' := if enable_wb
            then wb_override Wnorm CLF_PRIORITY preds (elev_get elev_by_oid oid) r
            else r in
  Ret (write_row r').

(** The loop with the script's settings. *)
Definition main_row : weights -> list (Z * option Q) -> Z -> list (option string) -> res written :=
  process_row ENABLE_WB_ELEV_RULE USE_LOWCONF_FALLBACK TAU.

(** *** Notions used in the statements *)

(** The keys of a dict are distinct. *)
Fixpoint distinct (ks : list string) : bool :=
  match ks with
  | [] => true
  | k :: ks' => negb (existsb (String.eqb k) ks') && distinct ks'
  end.

(** Every stored weight is non-negative, as [normalize_per_class] leaves
    them. *)
Definition weights_nonneg (W : weights) : bool :=
  forallb (fun e => forallb (fun cw => Qleb 0 (snd cw)) (snd e)) W.

(** [c] is the non-empty prediction of some classifier. *)
Definition predicted (preds : dict pred) (c : string) : Prop :=
  c <> EmptyString /\ exists clf, In (clf, Some c) preds.

(** The ensemble score of class [c]: the sum, over the classifiers that
    predict [c], of the weight of [c] for that classifier. *)
Definition class_score (W : weights) (preds : dict pred) (c : string) : Q :=
  sum (map (wget W (Some c)) (predicting preds (Some c))).

(** The votes cast for [c], in the order of [preds]. *)
Definition votes_for (W : weights) (preds : dict pred) (c : string) : list (string * Q) :=
  map (fun clf => (clf, wget W (Some c) clf)) (predicting preds (Some c)).

(** *** Sample data *)

(** Normalized weights for three classes; those of FAN lean on one
    classifier, short of one half by [2^-44]. *)
Definition sample_W : weights :=
  [ ("RIDGE",
     [ ("RTv11A2D50", 1 # 4); ("RTv11A2D60", 1 # 4);
       ("SVMv11A2D50", 1 # 4); ("SVMv11A2D60", 1 # 4) ]);
    ("FAN",
     [ ("RTv11A2D50", 1 # 4); ("RTv11A2D60", 1 # 4);
       ("SVMv11A2D50", 8796093022207 # 17592186044416);
       ("SVMv11A2D60", 1 # 17592186044416) ]);
    ("WATER BODY",
     [ ("RTv11A2D50", 1 # 10); ("RTv11A2D60", 2 # 10);
       ("SVMv11A2D50", 3 # 10); ("SVMv11A2D60", 4 # 10) ]) ]%string.

(** Two classifiers for RIDGE, one for FAN, one without a prediction. *)
Definition sample_preds : dict pred :=
  [ ("RTv11A2D50", Some "RIDGE"); ("RTv11A2D60", Some "RIDGE");
    ("SVMv11A2D50", Some "FAN") ]%string.

(** A text column: [0.8] is a number, [nan] is NaN, anything else fails. *)
Definition sample_parse (s : string) : option fval :=
  if String.eqb s "0.8" then Some (FNum (8 # 10))
  else if String.eqb s "nan" then Some FNaN
  else None.

Definition sample_rows : list (option string * cell) :=
  [ (Some "RIDGE", CFloat (FNum (1 # 2)));
    (Some "FAN", CFloat (FNum (-(1) # 4)));
    (Some "WATER BODY", CNull);
    (None, CFloat FNaN);
    (Some "RIDGE", CText "n/a");
    (Some "VALLEY BOTTOM", CText "0.8") ]%string.

End Ensemble.

(** ** accuracy_1pass_assessment.py *)

Module Accuracy.
Import Py.

(** The [Correct] flag of step 2:
    [1 if (refv is not None and predv is not None and refv == predv) else 0]. *)
Definition correct_flag (refv predv : option string) : Z :=
  match refv, predv with
  | Some r, Some p => if String.eqb r p then 1%Z else 0%Z
  | _, _ => 0%Z
  end.

(** Truth value of a float: false only for zero. *)
Definition nonzero (b : Q) : bool := negb (Qeq_bool b 0).

(** [(a / b) if (b and b != 0) else 0.0] *)
Definition safe_div (a b : Q) : Q :=
  if nonzero b && negb (Qeq_bool b 0) then a / b else 0.

(** A row of [df_metrics] after the joins and [fillna]. *)
Record areas : Type := {
  Class : string;
  Correct_Area : Q;
  Ref_Total_Area : Q;
  Pred_Total_Area : Q
}.

(** The metric columns added to a row. *)
Record metrics : Type := {
  Producer_Accuracy : Q;
  User_Accuracy : Q;
  IoU : Q;
  F1_Score : Q;
  FN_Area : Q;
  FN_Prop : Q;
  FP_Area : Q;
  FP_Prop : Q
}.

Definition f1_of (pa ua : Q) : Q :=
  if negb (Qeq_bool (pa + ua) 0) then safe_div (2 * (pa * ua)) (pa + ua) else 0.

Definition compute_metrics (a : areas) : metrics :=
  let c := Correct_Area a in
  let r := Ref_Total_Area a in
  let p := Pred_Total_Area a in
  let pa := safe_div c r in
  let ua := safe_div c p in
  {| Producer_Accuracy := pa;
     User_Accuracy := ua;
     IoU := safe_div c (r + p - c);
     F1_Score := f1_of pa ua;
     FN_Area := r - c;
     FN_Prop := safe_div (r - c) r;
     FP_Area := p - c;
     FP_Prop := safe_div (p - c) p |}.

(** [df_metrics]: every row with its metric columns. *)
Definition add_metrics (df : list areas) : list (areas * metrics) :=
  map (fun a => (a, compute_metrics a)) df.

(** Step 5, on the rows of [df_out]. *)
Definition overall_accuracy (df_out : list (areas * metrics)) : Q :=
  let correct := sum (map (fun am => Correct_Area (fst am)) df_out) in
  let ref := sum (map (fun am => Ref_Total_Area (fst am)) df_out) in
  if nonzero ref then correct / ref else 0.

(** *** Sample data *)

(** A class with 40 units of reference area and 60 of predicted area, 30 of
    them correct; and a class that is in the reference but never predicted. *)
Definition sample_area : areas :=
  {| Class := "RIDGE"; Correct_Area := 30; Ref_Total_Area := 40; Pred_Total_Area := 60 |}.

Definition sample_unseen : areas :=
  {| Class := "FAN"; Correct_Area := 0; Ref_Total_Area := 10; Pred_Total_Area := 0 |}.

End Accuracy.

(** ** analyze_correlation.py *)

Module Correlation.
Import Py.

Definition threshold : Q := 85 # 100.

(** A correlation matrix: its labels and its rows; [None] is NaN. *)
Record frame : Type := {
  labels : list string;
  rows : list (list (option Q))
}.

(** The items of a list with their positions. *)
Definition enumerate {A} (l : list A) : list (nat * A) :=
  combine (seq 0 (List.length l)) l.

(** [np.triu(np.ones(shape), k=1).astype(bool)] at row [i], column [j]. *)
Definition triu1 (i j : nat) : bool := Nat.ltb i j.

(** [correlation_matrix.where(mask)]: cells outside the mask become NaN. *)
Definition upper_tri (m : frame) : frame :=
  {| labels := labels m;
     rows := map (fun ir =>
               map (fun jx => if triu1 (fst ir) (fst jx) then snd jx else None)
                   (enumerate (snd ir)))
             (enumerate (rows m)) |}.

Definition label_at (m : frame) (i : nat) : string := nth i (labels m) EmptyString.

(** [stack().reset_index()]: the cells in row-major order, NaN dropped, each
    with its row label and column label. *)
Definition stack (m : frame) : list (string * string * Q) :=
  flat_map (fun ir =>
    flat_map (fun jx =>
      match snd jx with
      | Some r => [(label_at m (fst ir), label_at m (fst jx), r)]
      | None => []
      end) (enumerate (snd ir)))
    (enumerate (rows m)).

(** [high_corr_pairs[high_corr_pairs['Correlation'].abs() > threshold]] *)
Definition high_corr_filtered (m : frame) : list (string * string * Q) :=
  filter (fun t => Qltb threshold (Qabs (snd t))) (stack (upper_tri m)).

(** The last step: the rows of [high_corr_pairs.csv] when it is written. *)
Definition high_corr_csv (m : frame) : option (list (string * string * Q)) :=
  match high_corr_filtered m with
  | [] => None
  | hs => Some hs
  end.

(** *** Notions used in the statements *)

(** The cell at row [i], column [j]; NaN outside the matrix. *)
Definition cell_at (m : frame) (i j : nat) : option Q :=
  match nth_error (rows m) i with
  | Some row => match nth_error row j with
                | Some x => x
                | None => None
                end
  | None => None
  end.

(** [stack] with positions in place of labels. *)
Definition cells (m : frame) : list (nat * nat * Q) :=
  flat_map (fun ir =>
    flat_map (fun jx =>
      match snd jx with
      | Some r => [(fst ir, fst jx, r)]
      | None => []
      end) (enumerate (snd ir)))
    (enumerate (rows m)).

Definition labelled (m : frame) (t : nat * nat * Q) : string * string * Q :=
  (label_at m (fst (fst t)), label_at m (snd (fst t)), snd t).

(** A correlation matrix has one row and one column per label. *)
Definition square (m : frame) : bool :=
  Nat.eqb (List.length (rows m)) (List.length (labels m))
  && forallb (fun row => Nat.eqb (List.length row) (List.length (labels m))) (rows m).

(** *** Sample data *)

Definition sample_corr : frame :=
  {| labels := ["Elevation"; "Slope"; "TPI1_50m"]%string;
     rows := [ [Some 1; Some (9 # 10); Some (-(88) # 100)];
               [Some (9 # 10); Some 1; Some (85 # 100)];
               [Some (-(88) # 100); Some (85 # 100); Some 1] ] |}.

End Correlation.

(** ** Python floats as IEEE 754 doubles *)

Module B64.

(** A Python float is a binary64 value; the operations are those of the
    IEEE 754 specification of the Standard Library, rounding to nearest
    with ties to even, on 53 bits with infinities at exponent 1024. *)
Definition float : Type := spec_float.

Definition prec : Z := 53.
Definition emax : Z := 1024.

Definition fadd (x y : float) : float := SFadd prec emax x y.
Definition fsub (x y : float) : float := SFsub prec emax x y.
Definition fdiv (x y : float) : float := SFdiv prec emax x y.
Definition fabs (x : float) : float := SFabs x.

(** [x < y], [x <= y] and [x == y]; all false when an operand is NaN. *)
Definition flt (x y : float) : bool := SFltb x y.
Definition fle (x y : float) : bool := SFleb x y.
Definition feq (x y : float) : bool := SFeqb x y.

(** [0.0], [1.0] and [-1.0] *)
Definition zero : float := S754_zero false.
Definition one : float := S754_finite false 4503599627370496 (-52).
Definition minus_one : float := S754_finite true 4503599627370496 (-52).

(** [math.isnan(x)] *)
Definition is_nan (x : float) : bool :=
  match x with
  | S754_nan => true
  | _ => false
  end.

(** [math.isfinite(x)] *)
Definition is_finite (x : float) : bool :=
  match x with
  | S754_zero _ | S754_finite _ _ _ => true
  | S754_infinity _ | S754_nan => false
  end.

(** [sum(xs)]: the start value [0] and each partial sum are added to the
    next item in order, every addition rounded. *)
Definition fsum (xs : list float) : float := fold_left fadd xs zero.

(** [max(x, *xs)]: an item replaces the current one when it compares
    greater. *)
Definition fmax_from (x : float) (xs : list float) : float :=
  fold_left (fun m y => if flt m y then y else m) xs x.

(** [max(xs, default=d)] *)
Definition fmax_default (xs : list float) (d : float) : float :=
  match xs with
  | [] => d
  | x :: xs' => fmax_from x xs'
  end.

(** [max(xs, key=key)] on a non-empty list given as head and tail. *)
Definition fmax_by {A} (key : A -> float) (x : A) (xs : list A) : A :=
  fold_left (fun m y => if flt (key m) (key y) then y else m) xs x.

(** The rational number a finite float stands for. *)
Definition B2Q (x : float) : Q :=
  match x with
  | S754_finite s m e =>
      (if s then - inject_Z (Zpos m) else inject_Z (Zpos m)) * Qpower 2 e
  | _ => 0
  end.

(** A decimal literal [q] of the source is read as the double nearest to
    it: a valid double no further from [q] than half a unit of its last
    place. *)
Definition reads_as (q : Q) (x : float) : bool :=
  match x with
  | S754_finite _ _ e =>
      valid_binary prec emax x
      && Qle_bool (Qabs (B2Q x - q) * 2) (Qpower 2 e)
  | _ => false
  end.

(** A float that is not NaN has a place in a lexicographic order of triples:
    the sign class first, then exponent and mantissa, reversed for negative
    numbers. *)
Definition fkey (x : float) : Z * Z * Z :=
  match x with
  | S754_nan => (0, 0, 0)%Z
  | S754_zero _ => (0, 0, 0)%Z
  | S754_infinity s => (if s then (-2) else 2, 0, 0)%Z
  | S754_finite s m e => if s then (-1, - e, - Zpos m)%Z else (1, e, Zpos m)%Z
  end.

Definition lexlt (a b : Z * Z * Z) : Prop :=
  let '(a1, a2, a3) := a in
  let '(b1, b2, b3) := b in
  (a1 < b1 \/ (a1 = b1 /\ (a2 < b2 \/ (a2 = b2 /\ a3 < b3))))%Z.

End B64.

(** ** ensemble_E5_classification.py in double arithmetic *)

Module Ensemble64.
Import Py B64 Ensemble.

(** *** Parameters of the script *)

Definition TAU : float := S754_finite false 4953959590107546 (-53).            (* 0.55 *)

(** The two tolerances written as literals in [pick_ensemble_label]. *)
Definition score_tol : float := S754_finite false 4951760157141521 (-92).     (* 1e-12 *)
Definition single_tol : float := S754_finite false 5070602400912918 (-102).   (* 1e-15 *)

(** [Wnorm[class][clf]] *)
Definition weights : Type := dict (dict float).

(** [Wnorm.get(cls, {}).get(clf, 0.0)]; the keys of a weight table are
    strings, so [None] finds nothing. *)
Definition wget (W : weights) (cls : pred) (clf : string) : float :=
  match cls with
  | None => zero
  | Some c =>
      match dget W c with
      | Some d => match dget d clf with
                  | Some w => w
                  | None => zero
                  end
      | None => zero
      end
  end.

(** *** normalize_per_class *)

Section Normalize.

(** [w ** power] on floats: [None] where Python raises ([ZeroDivisionError],
    [OverflowError]) or leaves the floats (a complex result). *)
Variable fpow : float -> float -> option float.

(** [(w ** power if power != 1.0 else w)] *)
Definition powered_weight (power w : float) : option float :=
  if negb (feq power one) then fpow w power else Some w.

(** The dict comprehension [powered]; a failing item aborts it. *)
Fixpoint powered (power : float) (clf_dict : dict float) : option (dict float) :=
  match clf_dict with
  | [] => Some []
  | (clf, w) :: rest =>
      match powered_weight power w with
      | Some pw =>
          match powered power rest with
          | Some p => Some ((clf, pw) :: p)
          | None => None
          end
      | None => None
      end
  end.

(** The body of the loop of [normalize_per_class] for one class. *)
Definition normalize_class (power : float) (clf_dict : dict float) : option (dict float) :=
  match powered power clf_dict with
  | Some p =>
      let s := fsum (values p) in
      if flt zero s then Some (map (fun cw => (fst cw, fdiv (snd cw) s)) p)
      else Some (map (fun cw => (fst cw, zero)) clf_dict)
  | None => None
  end.

Fixpoint normalize_per_class (weight_map : weights) (power : float) : option weights :=
  match weight_map with
  | [] => Some []
  | (cls, clf_dict) :: rest =>
      match normalize_class power clf_dict with
      | Some d =>
          match normalize_per_class rest power with
          | Some out => Some ((cls, d) :: out)
          | None => None
          end
      | None => None
      end
  end.

(** [WEIGHT_POWER = 1.00] *)
Definition WEIGHT_POWER : float := one.






End Normalize.

(** *** pick_ensemble_label *)

(** The two [defaultdict]s filled by the first loop. *)
Record tally : Type := {
  score : dict float;
  voters_by_class : dict (list (string * float))
}.

Definition empty_tally : tally := {| score := []; voters_by_class := [] |}.

(** [voters_by_class[c]]: a missing key reads as the empty list. *)
Definition vget (v : dict (list (string * float))) (c : string) : list (string * float) :=
  match dget v c with
  | Some l => l
  | None => []
  end.

(** One turn of [for clf, cls in preds.items()]. *)
Definition vote (W : weights) (t : tally) (item : string * pred) : tally :=
  let clf := fst item in
  match snd item with
  | Some c =>
      if String.eqb c "" then t
      else
        let w := wget W (Some c) clf in
        {| score := dupd (score t) c
                      (fun o => match o with Some s => fadd s w | None => fadd zero w end);
           voters_by_class := dupd (voters_by_class t) c
                      (fun o => match o with Some l => l ++ [(clf, w)] | None => [(clf, w)] end) |}
  | None => t
  end.

Definition count_votes (W : weights) (preds : dict pred) : tally :=
  fold_left (vote W) preds empty_tally.

(** [[c for c, s in score.items() if abs(s - max_score) < 1e-12]] *)
Definition winners_of (sc : dict float) (max_score : float) : list string :=
  map fst (filter (fun cs => flt (fabs (fsub (snd cs) max_score)) score_tol) sc).

(** [max((w for (_clf, w) in voters_by_class[c]), default=0.0)] *)
Definition top_single (v : dict (list (string * float))) (c : string) : float :=
  fmax_default (map snd (vget v c)) zero.

(** One turn of [for c in winners] on the pair [(best_w, tb1_candidates)]. *)
Definition tb1_step (v : dict (list (string * float))) (st : float * list string) (c : string)
  : float * list string :=
  let t := top_single v c in
  if flt (fadd (fst st) single_tol) t then (t, [c])
  else if fle (fabs (fsub t (fst st))) single_tol then (fst st, snd st ++ [c])
  else st.

Definition tb1_scan (v : dict (list (string * float))) (winners : list string)
  : float * list string :=
  fold_left (tb1_step v) winners (minus_one, []).

Definition tb1_candidates (v : dict (list (string * float))) (winners : list string)
  : list string :=
  snd (tb1_scan v winners).

Definition best_priority_rank_for_class (v : dict (list (string * float)))
    (clf_priority_order : list string) (c : string) : nat :=
  let voters := map fst (vget v c) in
  let ranks := flat_map (fun clf => match index clf_priority_order clf with
                                    | Some i => [i]
                                    | None => []
                                    end) voters in
  match ranks with
  | [] => 999
  | r :: rs => min_from r rs
  end.

(** The winner before the fallback. *)
Definition tie_break (v : dict (list (string * float))) (clf_priority_order : list string)
    (winners : list string) : res string :=
  match winners with
  | [w] => Ret w
  | _ =>
      match tb1_candidates v winners with
      | [c] => Ret c
      | tb1 => item0 (sorted_by (best_priority_rank_for_class v clf_priority_order) tb1)
      end
  end.

(** The body of [if use_lowconf and max_score < tau]. *)
Definition lowconf_fallback (W : weights) (preds : dict pred)
    (clf_priority_order : list string) (v : dict (list (string * float)))
    (winner : string) : res (pred * float) :=
  best_clf <- match vget v winner with
              | t :: ts => Ret (fst (fmax_by snd t ts))
              | [] => item0 clf_priority_order
              end ;;
  let winner' := match dget preds best_clf with
                 | Some p => p
                 | None => Some winner
                 end in
  Ret (winner',
       fsum (map (fun it => wget W winner' (fst it))
                 (filter (fun it => pred_eqb (snd it) winner') preds))).

Definition pick_ensemble_label (preds : dict pred) (Wnorm : weights)
    (clf_priority_order : list string) (use_lowconf : bool) (tau : float)
  : res (pred * list string * float) :=
  let t := count_votes Wnorm preds in
  match values (score t) with
  | [] => Ret (None, [], zero)
  | s :: ss =>
      let max_score := fmax_from s ss in
      let winners := winners_of (score t) max_score in
      winner <- tie_break (voters_by_class t) clf_priority_order winners ;;
      wm <- (if use_lowconf && flt max_score tau
             then lowconf_fallback Wnorm preds clf_priority_order (voters_by_class t) winner
             else Ret (Some winner, max_score)) ;;
      Ret (fst wm, sources preds clf_priority_order (fst wm), snd wm)
  end.

(** *** Notions used in the statements *)

(** The classifiers whose prediction is the class [c], in the order of
    [preds]. *)
Fixpoint predictors (preds : dict pred) (c : string) : list string :=
  match preds with
  | [] => []
  | (clf, Some c') :: rest =>
      if String.eqb c' c then clf :: predictors rest c else predictors rest c
  | (_, None) :: rest => predictors rest c
  end.

(** [w] is the weight the table [W] holds for class [c] and classifier
    [clf], or [0.0] when it holds none. *)
Definition has_weight (W : weights) (c clf : string) (w : float) : Prop :=
  (exists d, In (c, d) W /\ In (clf, w) d)
  \/ (w = zero /\ forall d w', In (c, d) W -> ~ In (clf, w') d).

(** The keys of the table and of each of its dicts are distinct. *)
Definition well_keyed (W : weights) : bool :=
  distinct (keys W) && forallb (fun e => distinct (keys (snd e))) W.

(** No stored weight is negative or NaN. *)
Definition weights_nonneg (W : weights) : bool :=
  forallb (fun e => forallb (fun cw => fle zero (snd cw)) (snd e)) W.

(** The score of class [c]: the weights of its predictors, summed in
    order. *)
Definition class_score (W : weights) (preds : dict pred) (c : string) : float :=
  fsum (map (wget W (Some c)) (predictors preds c)).

(** The votes cast for [c], in the order of [preds]. *)
Definition votes_for (W : weights) (preds : dict pred) (c : string) : list (string * float) :=
  map (fun clf => (clf, wget W (Some c) clf)) (predictors preds c).

(** [s] is the score of class [c]: the sum, taken in the order of [preds]
    and rounded at every step, of the weights the table holds for [c] and
    the classifiers that predict [c]. *)
Definition is_score (W : weights) (preds : dict pred) (c : string) (s : float) : Prop :=
  exists ws, Forall2 (has_weight W c) (predictors preds c) ws /\ s = fsum ws.


(** Every class that is predicted has a finite score. *)
Definition scores_finite (W : weights) (preds : dict pred) : bool :=
  forallb (fun it => match snd it with
                     | Some c => is_finite (class_score W preds c)
                     | None => true
                     end) preds.

(** *** Sample data *)

Definition f0_25 : float := S754_finite false 4503599627370496 (-54).          (* 0.25 *)
Definition f0_1 : float := S754_finite false 7205759403792794 (-56).           (* 0.1 *)
Definition f0_4 : float := S754_finite false 7205759403792794 (-54).           (* 0.4 *)

(** [2^-8] and the double 1153 units of the last place above it. *)
Definition f_light : float := S754_finite false 4503599627370496 (-60).
Definition f_heavy : float := S754_finite false 4503599627371649 (-60).

(** Normalized weights of three classes for the four classifiers. *)
Definition sample_W : weights :=
  [ ("RIDGE",
     [ ("RTv11A2D50", f0_25); ("RTv11A2D60", f0_25);
       ("SVMv11A2D50", f0_25); ("SVMv11A2D60", f0_25) ]);
    ("FAN",
     [ ("RTv11A2D50", f0_25); ("RTv11A2D60", f0_25);
       ("SVMv11A2D50", S754_finite false 9007199254739968 (-54));  (* 0.5 - 2^-44 *)
       ("SVMv11A2D60", S754_finite false 4503599627370496 (-96)) ]) ]%string.

(** Two classifiers for RIDGE, one for FAN, one without a prediction. *)
Definition sample_preds : dict pred :=
  [ ("RTv11A2D50", Some "RIDGE"); ("RTv11A2D60", Some "RIDGE");
    ("SVMv11A2D50", Some "FAN") ]%string.


(** What [normalize_per_class] makes of an infinite weight in the first
    table. *)
Definition nan_W : weights :=
  [ ("RIDGE",
     [ ("RTv11A2D50", S754_nan); ("RTv11A2D60", zero);
       ("SVMv11A2D50", zero); ("SVMv11A2D60", zero) ]) ]%string.

(** Weights under which the vote for FAN is heavier than the vote for
    RIDGE by 1153 * 2^-60, which is more than 1e-15. *)
Definition gap_W : weights :=
  [ ("RIDGE", [ ("RTv11A2D50", f_light) ]);
    ("FAN",   [ ("RTv11A2D60", f_heavy) ]) ]%string.

(** One classifier for RIDGE and, after it, one for FAN. *)
Definition gap_preds : dict pred :=
  [ ("RTv11A2D50", Some "RIDGE"); ("RTv11A2D60", Some "FAN") ]%string.


(** The same class with an infinite IoU in the first table. *)
Definition inf_raw : weights :=
  [ ("RIDGE",
     [ ("RTv11A2D50", S754_infinity false); ("RTv11A2D60", f0_1);
       ("SVMv11A2D50", f0_4); ("SVMv11A2D60", f0_1) ]) ]%string.

(** A power that is never asked for. *)
Definition no_pow (w power : float) : option float := None.

End Ensemble64.

(** * Facts about the Python helpers *)

Import Py.

Lemma Qltb_lt (a b : Q) : Qltb a b = true <-> a < b.
Proof.
  unfold Qltb. rewrite negb_true_iff. split; intro H.
  - apply Qnot_le_lt. intro Hle. apply Qle_bool_iff in Hle. congruence.
  - destruct (Qle_bool b a) eqn:E; [|reflexivity].
    apply Qle_bool_iff in E. exfalso. apply (Qlt_not_le _ _ H E).
Qed.

Lemma Qltb_ge (a b : Q) : Qltb a b = false <-> b <= a.
Proof.
  unfold Qltb. rewrite negb_false_iff. apply Qle_bool_iff.
Qed.

Lemma Qleb_le (a b : Q) : Qleb a b = true <-> a <= b.
Proof. apply Qle_bool_iff. Qed.

Section DictFacts.
Context {V : Type}.
Implicit Types (d : dict V) (k : string) (f : option V -> V).

Lemma dget_dupd d k f k' :
  dget (dupd d k f) k' = if String.eqb k k' then Some (f (dget d k)) else dget d k'.
Proof.
  induction d as [|[k0 v0] d IH]; simpl.
  - destruct (String.eqb k k'); reflexivity.
  - destruct (String.eqb k0 k) eqn:E0; simpl.
    + apply String.eqb_eq in E0. subst k0.
      destruct (String.eqb k k'); reflexivity.
    + destruct (String.eqb k0 k') eqn:E1.
      * apply String.eqb_eq in E1. subst k0.
        rewrite String.eqb_sym, E0. reflexivity.
      * exact IH.
Qed.

Lemma keys_dupd d k f :
  keys (dupd d k f) = if existsb (String.eqb k) (keys d) then keys d else keys d ++ [k].
Proof.
  unfold keys. induction d as [|[k0 v0] d IH]; simpl; [reflexivity|].
  rewrite (String.eqb_sym k k0).
  destruct (String.eqb k0 k); simpl; [reflexivity|].
  rewrite IH. destruct (existsb _ _); reflexivity.
Qed.

Lemma NoDup_keys_dupd d k f : NoDup (keys d) -> NoDup (keys (dupd d k f)).
Proof.
  intro H. rewrite keys_dupd. destruct (existsb (String.eqb k) (keys d)) eqn:E; [exact H|].
  apply NoDup_app; [exact H|repeat constructor; simpl; tauto|].
  intros x Hx [Hk|[]]. subst x.
  assert (existsb (String.eqb k) (keys d) = true); [|congruence].
  apply existsb_exists. exists k. split; [exact Hx|apply String.eqb_refl].
Qed.

Lemma dget_Some_in d k v : dget d k = Some v -> In (k, v) d.
Proof.
  induction d as [|[k0 v0] d IH]; simpl; [discriminate|].
  destruct (String.eqb k0 k) eqn:E.
  - apply String.eqb_eq in E. intro H. inversion H. subst. left. reflexivity.
  - intro H. right. apply IH, H.
Qed.

Lemma dget_None_notin d k : dget d k = None <-> ~ In k (keys d).
Proof.
  unfold keys. induction d as [|[k0 v0] d IH]; simpl.
  - tauto.
  - destruct (String.eqb k0 k) eqn:E.
    + apply String.eqb_eq in E. split; [discriminate|]. intro H. exfalso. apply H. auto.
    + apply String.eqb_neq in E. rewrite IH. tauto.
Qed.

Lemma in_NoDup_dget d k v : NoDup (keys d) -> In (k, v) d -> dget d k = Some v.
Proof.
  unfold keys. induction d as [|[k0 v0] d IH]; simpl; [tauto|].
  intros Hnd [Heq|Hin].
  - inversion Heq. subst. rewrite String.eqb_refl. reflexivity.
  - inversion Hnd as [|? ? Hnot Hnd']. subst.
    destruct (String.eqb k0 k) eqn:E.
    + apply String.eqb_eq in E. subst k0. exfalso. apply Hnot.
      apply in_map_iff. exists (k, v). auto.
    + apply IH; assumption.
Qed.

End DictFacts.


Lemma max_from_lb (x : Q) (xs : list Q) : x <= max_from x xs.
Proof.
  unfold max_from. revert x. induction xs as [|y ys IH]; intro x; simpl.
  - apply Qle_refl.
  - destruct (Qltb x y) eqn:E.
    + apply Qltb_lt in E. apply Qle_trans with y; [apply Qlt_le_weak, E|apply IH].
    + apply IH.
Qed.

Lemma max_from_ge (x : Q) (xs : list Q) (y : Q) : In y (x :: xs) -> y <= max_from x xs.
Proof.
  revert x. induction xs as [|z zs IH]; intros x Hin.
  - destruct Hin as [->|[]]. apply Qle_refl.
  - unfold max_from. simpl. fold (max_from (if Qltb x z then z else x) zs).
    destruct (Qltb x z) eqn:E.
    + apply Qltb_lt in E. destruct Hin as [->|Hin].
      * apply Qle_trans with z; [apply Qlt_le_weak, E|apply max_from_lb].
      * apply IH, Hin.
    + apply Qltb_ge in E. destruct Hin as [->|[->|Hin]].
      * apply max_from_lb.
      * apply Qle_trans with x; [exact E|apply max_from_lb].
      * apply IH. right. exact Hin.
Qed.

Lemma max_by_in {A} (key : A -> Q) (x : A) (xs : list A) : In (max_by key x xs) (x :: xs).
Proof.
  unfold max_by. revert x. induction xs as [|y ys IH]; intro x; simpl.
  - left. reflexivity.
  - destruct (Qltb (key x) (key y)).
    + destruct (IH y) as [H|H]; [right; left; exact H|right; right; exact H].
    + destruct (IH x) as [H|H]; [left; exact H|right; right; exact H].
Qed.

Lemma max_by_lb {A} (key : A -> Q) (x : A) (xs : list A) : key x <= key (max_by key x xs).
Proof.
  unfold max_by. revert x. induction xs as [|y ys IH]; intro x; simpl.
  - apply Qle_refl.
  - destruct (Qltb (key x) (key y)) eqn:E.
    + apply Qltb_lt in E. apply Qle_trans with (key y); [apply Qlt_le_weak, E|apply IH].
    + apply IH.
Qed.

Lemma max_by_ge {A} (key : A -> Q) (x : A) (xs : list A) (y : A) :
  In y (x :: xs) -> key y <= key (max_by key x xs).
Proof.
  revert x. induction xs as [|z zs IH]; intros x Hin.
  - destruct Hin as [->|[]]. apply Qle_refl.
  - unfold max_by. simpl.
    fold (max_by key (if Qltb (key x) (key z) then z else x) zs).
    destruct (Qltb (key x) (key z)) eqn:E.
    + apply Qltb_lt in E. destruct Hin as [->|Hin].
      * apply Qle_trans with (key z); [apply Qlt_le_weak, E|apply max_by_lb].
      * apply IH, Hin.
    + apply Qltb_ge in E. destruct Hin as [->|[->|Hin]].
      * apply max_by_lb.
      * apply Qle_trans with (key x); [exact E|apply max_by_lb].
      * apply IH. right. exact Hin.
Qed.

Section SortFacts.
Context {A : Type} (key : A -> nat).

Lemma in_insert_by (x : A) (l : list A) (y : A) :
  In y (insert_by key x l) <-> y = x \/ In y l.
Proof.
  induction l as [|z l IH]; simpl.
  - intuition.
  - destruct (Nat.ltb (key z) (key x)); simpl; rewrite ?IH; intuition.
Qed.

Lemma in_sorted_by (l : list A) (y : A) : In y (sorted_by key l) <-> In y l.
Proof.
  unfold sorted_by. induction l as [|x l IH]; simpl; [tauto|].
  rewrite in_insert_by, IH. intuition.
Qed.

Lemma length_insert_by (x : A) (l : list A) :
  List.length (insert_by key x l) = S (List.length l).
Proof.
  induction l as [|z l IH]; simpl; [reflexivity|].
  destruct (Nat.ltb (key z) (key x)); simpl; [rewrite IH|]; reflexivity.
Qed.

Lemma length_sorted_by (l : list A) : List.length (sorted_by key l) = List.length l.
Proof.
  unfold sorted_by. induction l as [|x l IH]; simpl; [reflexivity|].
  rewrite length_insert_by, IH. reflexivity.
Qed.

Definition key_le (a b : A) : Prop := (key a <= key b)%nat.

Lemma insert_by_sorted (x : A) (l : list A) :
  StronglySorted key_le l -> StronglySorted key_le (insert_by key x l).
Proof.
  induction 1 as [|z l Hs IH Hall]; simpl.
  - repeat constructor.
  - destruct (Nat.ltb (key z) (key x)) eqn:E.
    + apply Nat.ltb_lt in E. constructor; [exact IH|].
      apply Forall_forall. intros y Hy. apply in_insert_by in Hy.
      destruct Hy as [->|Hy].
      * unfold key_le. lia.
      * rewrite Forall_forall in Hall. apply Hall, Hy.
    + apply Nat.ltb_ge in E. constructor; [constructor; assumption|].
      constructor; [exact E|].
      rewrite Forall_forall in Hall |- *. intros y Hy.
      specialize (Hall y Hy). unfold key_le in *. lia.
Qed.

Lemma sorted_by_sorted (l : list A) : StronglySorted key_le (sorted_by key l).
Proof.
  unfold sorted_by. induction l as [|x l IH]; simpl.
  - constructor.
  - apply insert_by_sorted, IH.
Qed.

(** The head of the sorted list has the least key. *)
Lemma item0_sorted_by_min (l : list A) (c : A) :
  item0 (sorted_by key l) = Ret c ->
  In c l /\ forall c', In c' l -> (key c <= key c')%nat.
Proof.
  intro H. pose proof (sorted_by_sorted l) as Hs.
  destruct (sorted_by key l) as [|h t] eqn:E; simpl in H; [discriminate|].
  inversion H. subst h. split.
  - apply in_sorted_by. rewrite E. left. reflexivity.
  - intros c' Hc'. apply in_sorted_by in Hc'. rewrite E in Hc'.
    inversion Hs as [|? ? _ Hall]. subst.
    destruct Hc' as [->|Hc']; [lia|].
    rewrite Forall_forall in Hall. apply Hall, Hc'.
Qed.

Lemma item0_sorted_by_ret (l : list A) :
  l <> [] -> exists c, item0 (sorted_by key l) = Ret c.
Proof.
  intro Hne. pose proof (length_sorted_by l) as Hl.
  destruct (sorted_by key l) as [|h t].
  - destruct l; [congruence|discriminate].
  - exists h. reflexivity.
Qed.

End SortFacts.

(** * The vote count of pick_ensemble_label *)

Import Ensemble.

Lemma distinct_NoDup (ks : list string) : distinct ks = true -> NoDup ks.
Proof.
  induction ks as [|k ks IH]; simpl; intro H; [constructor|].
  apply andb_true_iff in H. destruct H as [Hk Hd].
  constructor; [|apply IH, Hd].
  intro Hin. apply negb_true_iff in Hk.
  assert (existsb (String.eqb k) ks = true); [|congruence].
  apply existsb_exists. exists k. split; [exact Hin|apply String.eqb_refl].
Qed.

Lemma pred_eqb_eq (p q : pred) : pred_eqb p q = true <-> p = q.
Proof.
  destruct p as [a|], q as [b|]; simpl; try (split; [discriminate|congruence]).
  - rewrite String.eqb_eq. split; congruence.
  - tauto.
Qed.

Lemma in_predicting (preds : dict pred) (w : pred) (clf : string) :
  In clf (predicting preds w) <-> In (clf, w) preds.
Proof.
  unfold predicting. rewrite in_map_iff. split.
  - intros [[k p] [Hk Hin]]. simpl in Hk. subst k.
    apply filter_In in Hin. destruct Hin as [Hin Hp]. simpl in Hp.
    apply pred_eqb_eq in Hp. subst p. exact Hin.
  - intro Hin. exists (clf, w). split; [reflexivity|].
    apply filter_In. split; [exact Hin|]. simpl. apply pred_eqb_eq. reflexivity.
Qed.

Lemma predicting_app (l1 l2 : dict pred) (w : pred) :
  predicting (l1 ++ l2) w = predicting l1 w ++ predicting l2 w.
Proof. unfold predicting. rewrite filter_app, map_app. reflexivity. Qed.

Lemma sum_app (xs : list Q) (x : Q) : sum (xs ++ [x]) = sum xs + x.
Proof. unfold sum. rewrite fold_left_app. reflexivity. Qed.

Lemma sum_votes_for (W : weights) (preds : dict pred) (c : string) :
  sum (map snd (votes_for W preds c)) = class_score W preds c.
Proof.
  unfold votes_for, class_score. rewrite map_map. simpl. reflexivity.
Qed.

Lemma count_votes_snoc (W : weights) (l : dict pred) (x : string * pred) :
  count_votes W (l ++ [x]) = vote W (count_votes W l) x.
Proof. unfold count_votes. rewrite fold_left_app. reflexivity. Qed.

Lemma vote_score (W : weights) (t : tally) (clf : string) (p : pred) (c : string) :
  dget (score (vote W t (clf, p))) c =
  if truthy p && pred_eqb p (Some c)
  then Some (match dget (score t) c with
             | Some s => s + wget W (Some c) clf
             | None => 0 + wget W (Some c) clf
             end)
  else dget (score t) c.
Proof.
  unfold vote. cbn [fst snd]. destruct p as [c0|]; [|reflexivity].
  cbn [truthy pred_eqb]. destruct (String.eqb c0 ""); [reflexivity|].
  cbn [score negb andb]. rewrite dget_dupd.
  destruct (String.eqb c0 c) eqn:E; [|reflexivity].
  apply String.eqb_eq in E. subst c0. reflexivity.
Qed.

Lemma vote_voters (W : weights) (t : tally) (clf : string) (p : pred) (c : string) :
  dget (voters_by_class (vote W t (clf, p))) c =
  if truthy p && pred_eqb p (Some c)
  then Some (match dget (voters_by_class t) c with
             | Some l => l ++ [(clf, wget W (Some c) clf)]
             | None => [(clf, wget W (Some c) clf)]
             end)
  else dget (voters_by_class t) c.
Proof.
  unfold vote. cbn [fst snd]. destruct p as [c0|]; [|reflexivity].
  cbn [truthy pred_eqb]. destruct (String.eqb c0 ""); [reflexivity|].
  cbn [voters_by_class negb andb]. rewrite dget_dupd.
  destruct (String.eqb c0 c) eqn:E; [|reflexivity].
  apply String.eqb_eq in E. subst c0. reflexivity.
Qed.

(** What the two dicts hold after the loop: a class is a key exactly when it
    is non-empty and has a vote, with its votes in order and their sum. *)
Lemma count_votes_spec (W : weights) (preds : dict pred) (c : string) :
  let t := count_votes W preds in
  dget (voters_by_class t) c =
    (if String.eqb c "" then None
     else match votes_for W preds c with
          | [] => None
          | vs => Some vs
          end)
  /\ dget (score t) c =
    (if String.eqb c "" then None
     else match votes_for W preds c with
          | [] => None
          | vs => Some (sum (map snd vs))
          end).
Proof.
  cbv zeta.
  induction preds as [|[clf p] l IH] using rev_ind.
  - destruct (String.eqb c ""); split; reflexivity.
  - rewrite count_votes_snoc, vote_score, vote_voters.
    destruct IH as [IHv IHs]. rewrite IHv, IHs. clear IHv IHs.
    assert (Hone : votes_for W (l ++ [(clf, p)]) c
                   = votes_for W l c
                     ++ (if pred_eqb p (Some c) then [(clf, wget W (Some c) clf)] else [])).
    { unfold votes_for. rewrite predicting_app, map_app. f_equal.
      unfold predicting. cbn [filter snd]. destruct (pred_eqb p (Some c)); reflexivity. }
    rewrite Hone. clear Hone.
    destruct (pred_eqb p (Some c)) eqn:Ep.
    + apply pred_eqb_eq in Ep. subst p. cbn [truthy].
      destruct (String.eqb c ""); cbn [negb andb]; [split; reflexivity|].
      destruct (votes_for W l c) as [|v vs]; cbn [app].
      * split; reflexivity.
      * split; [reflexivity|]. f_equal.
        change (v :: vs ++ [(clf, wget W (Some c) clf)])
          with ((v :: vs) ++ [(clf, wget W (Some c) clf)]).
        rewrite map_app. cbn [map snd]. rewrite sum_app. reflexivity.
    + rewrite andb_false_r, app_nil_r. split; reflexivity.
Qed.

Lemma count_votes_NoDup (W : weights) (preds : dict pred) :
  NoDup (keys (score (count_votes W preds))).
Proof.
  induction preds as [|[clf p] l IH] using rev_ind.
  - constructor.
  - rewrite count_votes_snoc. unfold vote. simpl.
    destruct p as [c0|]; [|exact IH].
    destruct (String.eqb c0 ""); [exact IH|]. simpl.
    apply NoDup_keys_dupd, IH.
Qed.


(** The classes within the tolerance of the best score. *)
Lemma in_winners_of (sc : dict Q) (m : Q) (c : string) :
  NoDup (keys sc) ->
  (In c (winners_of sc m) <-> exists s, dget sc c = Some s /\ Qabs (s - m) < score_tol).
Proof.
  intro Hnd. unfold winners_of. rewrite in_map_iff. split.
  - intros [[c' s] [Hc Hin]]. cbn [fst] in Hc. subst c'.
    apply filter_In in Hin. destruct Hin as [Hin Hs]. cbn [snd] in Hs.
    exists s. split; [apply in_NoDup_dget; assumption|apply Qltb_lt, Hs].
  - intros [s [Hget Hs]]. exists (c, s). split; [reflexivity|].
    apply filter_In. split; [apply dget_Some_in, Hget|].
    cbn [snd]. apply Qltb_lt, Hs.
Qed.

Lemma Qabs_self_tol (m : Q) : Qabs (m - m) < score_tol.
Proof.
  assert (H : m - m == 0) by ring. rewrite H. reflexivity.
Qed.


(** *** The scan for the heaviest single voter *)

Lemma tb1_scan_snoc (v : dict (list (string * Q))) (l : list string) (c : string) :
  tb1_scan v (l ++ [c]) = tb1_step v (tb1_scan v l) c.
Proof. unfold tb1_scan. rewrite fold_left_app. reflexivity. Qed.

(** After the scan: every candidate is a scanned class within the tolerance
    of the leading weight, and no scanned class is above the leading weight
    by more than the tolerance. *)
Lemma tb1_scan_sound (v : dict (list (string * Q))) (l : list string) :
  let st := tb1_scan v l in
  (forall c, In c (snd st) -> In c l /\ Qabs (top_single v c - fst st) <= single_tol)
  /\ (forall c, In c l -> top_single v c <= fst st + single_tol).
Proof.
  cbv zeta. induction l as [|c l IH] using rev_ind.
  - split; intros c [].
  - rewrite tb1_scan_snoc. destruct IH as [IHc IHl].
    destruct (tb1_scan v l) as [b cands]. cbn [fst snd] in *.
    unfold tb1_step. cbn [fst snd].
    destruct (Qltb (b + single_tol) (top_single v c)) eqn:E1; cbn [fst snd].
    + apply Qltb_lt in E1. split.
      * intros c' [<-|[]]. split; [apply in_or_app; right; left; reflexivity|].
        assert (H0 : top_single v c - top_single v c == 0) by ring.
        rewrite H0. discriminate.
      * intros c' Hin. apply in_app_or in Hin. destruct Hin as [Hin|[<-|[]]].
        -- specialize (IHl _ Hin).
           apply Qle_trans with (b + single_tol); [exact IHl|].
           apply Qle_trans with (top_single v c); [apply Qlt_le_weak, E1|].
           rewrite <- (Qplus_0_r (top_single v c)) at 1.
           apply Qplus_le_r. discriminate.
        -- rewrite <- (Qplus_0_r (top_single v c)) at 1.
           apply Qplus_le_r. discriminate.
    + apply Qltb_ge in E1.
      destruct (Qleb (Qabs (top_single v c - b)) single_tol) eqn:E2; cbn [fst snd].
      * apply Qleb_le in E2. split.
        -- intros c' Hin. apply in_app_or in Hin. destruct Hin as [Hin|[<-|[]]].
           ++ destruct (IHc _ Hin). split; [apply in_or_app; left|]; assumption.
           ++ split; [apply in_or_app; right; left; reflexivity|exact E2].
        -- intros c' Hin. apply in_app_or in Hin. destruct Hin as [Hin|[<-|[]]].
           ++ apply IHl, Hin.
           ++ exact E1.
      * split.
        -- intros c' Hin. destruct (IHc _ Hin). split; [apply in_or_app; left|]; assumption.
        -- intros c' Hin. apply in_app_or in Hin. destruct Hin as [Hin|[<-|[]]].
           ++ apply IHl, Hin.
           ++ exact E1.
Qed.


(** *** The tie-break *)

Lemma tie_break_in (v : dict (list (string * Q))) (prio winners : list string) (c : string) :
  tie_break v prio winners = Ret c -> In c winners.
Proof.
  unfold tie_break. intro H.
  assert (Hgen : match tb1_candidates v winners with
                 | [c'] => Ret c'
                 | tb1 => item0 (sorted_by (best_priority_rank_for_class v prio) tb1)
                 end = Ret c -> In c winners).
  { clear H. intro H.
    assert (Hin : In c (tb1_candidates v winners)).
    { destruct (tb1_candidates v winners) as [|c1 [|c2 cs]] eqn:E.
      - discriminate.
      - inversion H. left. reflexivity.
      - apply item0_sorted_by_min in H. apply H. }
    apply (proj1 (tb1_scan_sound v winners)) in Hin. apply Hin. }
  destruct winners as [|w [|w' ws]]; auto.
  inversion H. left. reflexivity.
Qed.


Lemma count_votes_vget (W : weights) (preds : dict pred) (c : string) :
  c <> EmptyString ->
  vget (voters_by_class (count_votes W preds)) c = votes_for W preds c.
Proof.
  intro Hc. unfold vget.
  rewrite (proj1 (count_votes_spec W preds c)).
  apply String.eqb_neq in Hc. rewrite Hc.
  destruct (votes_for W preds c); reflexivity.
Qed.


(** With no prediction that counts, nothing is tallied. *)
Lemma count_votes_falsy (W : weights) (preds : dict pred) :
  (forall clf p, In (clf, p) preds -> truthy p = false) ->
  count_votes W preds = empty_tally.
Proof.
  induction preds as [|[clf p] l IH] using rev_ind; [reflexivity|].
  intro H. rewrite count_votes_snoc, IH.
  - assert (Hp : truthy p = false).
    { apply (H clf). apply in_or_app. right. left. reflexivity. }
    unfold vote. cbn [fst snd]. destruct p as [c|]; [|reflexivity].
    cbn [truthy] in Hp. apply negb_false_iff in Hp. rewrite Hp. reflexivity.
  - intros clf' p' Hin. apply (H clf'). apply in_or_app. left. exact Hin.
Qed.

Lemma predicted_votes (W : weights) (preds : dict pred) (c : string) :
  predicted preds c <-> c <> EmptyString /\ votes_for W preds c <> [].
Proof.
  unfold predicted, votes_for. split; intros [Hc H]; (split; [exact Hc|]).
  - destruct H as [clf Hin]. apply in_predicting in Hin.
    destruct (predicting preds (Some c)); [destruct Hin|discriminate].
  - destruct (predicting preds (Some c)) as [|clf l] eqn:E;
      [exfalso; apply H; reflexivity|].
    exists clf. apply in_predicting. rewrite E. left. reflexivity.
Qed.

(** The score dict has exactly the predicted classes, each with its score. *)
Lemma count_votes_score (W : weights) (preds : dict pred) (c : string) (s : Q) :
  dget (score (count_votes W preds)) c = Some s ->
  predicted preds c /\ s = class_score W preds c.
Proof.
  rewrite (proj2 (count_votes_spec W preds c)).
  destruct (String.eqb c "") eqn:Ec; [discriminate|]. apply String.eqb_neq in Ec.
  destruct (votes_for W preds c) as [|vt vs] eqn:Ev; [discriminate|].
  intro H. injection H as <-. split.
  - apply (predicted_votes W). split; [exact Ec|]. rewrite Ev. discriminate.
  - rewrite <- sum_votes_for, Ev. reflexivity.
Qed.

Lemma count_votes_predicted (W : weights) (preds : dict pred) (c : string) :
  predicted preds c ->
  dget (score (count_votes W preds)) c = Some (class_score W preds c).
Proof.
  intro Hp. apply (predicted_votes W) in Hp. destruct Hp as [Hc Hv].
  rewrite (proj2 (count_votes_spec W preds c)).
  apply String.eqb_neq in Hc. rewrite Hc.
  rewrite <- sum_votes_for.
  destruct (votes_for W preds c) as [|vt vs] eqn:Ev; [congruence|].
  reflexivity.
Qed.

(** What holds of the class the tie-break returns. *)
Lemma tie_break_winner (W : weights) (preds : dict pred) (prio : list string)
    (s : Q) (ss : list Q) (w : string) :
  let t := count_votes W preds in
  values (score t) = s :: ss ->
  tie_break (voters_by_class t) prio (winners_of (score t) (max_from s ss)) = Ret w ->
  predicted preds w
  /\ Qabs (class_score W preds w - max_from s ss) < score_tol
  /\ vget (voters_by_class t) w = votes_for W preds w.
Proof.
  cbv zeta. intros Hv Htb. apply tie_break_in in Htb.
  apply in_winners_of in Htb; [|apply count_votes_NoDup].
  destruct Htb as [s' [Hget Hs']].
  apply count_votes_score in Hget. destruct Hget as [Hp ->].
  split; [exact Hp|]. split; [exact Hs'|].
  apply count_votes_vget. apply Hp.
Qed.

(** The fallback finds a voter of the winner, whose prediction is the winner
    again. *)
Lemma lowconf_fallback_same (W : weights) (preds : dict pred) (prio : list string)
    (v : dict (list (string * Q))) (w : string) :
  NoDup (keys preds) ->
  predicted preds w ->
  vget v w = votes_for W preds w ->
  exists best_clf,
    dget preds best_clf = Some (Some w)
    /\ (forall clf, In (clf, Some w) preds -> wget W (Some w) clf <= wget W (Some w) best_clf)
    /\ lowconf_fallback W preds prio v w = Ret (Some w, class_score W preds w).
Proof.
  intros Hnd Hp Hv. unfold lowconf_fallback. rewrite Hv.
  apply (predicted_votes W) in Hp. destruct Hp as [_ Hne].
  destruct (votes_for W preds w) as [|vt vs] eqn:Ev; [congruence|].
  set (b := max_by snd vt vs).
  assert (Hb : In b (votes_for W preds w)).
  { rewrite Ev. apply max_by_in. }
  assert (Hmax : forall y, In y (votes_for W preds w) -> snd y <= snd b).
  { intros y Hy. rewrite Ev in Hy. apply (max_by_ge snd vt vs y Hy). }
  unfold votes_for in Hb. apply in_map_iff in Hb.
  destruct Hb as [clf [Hclf Hin]]. apply in_predicting in Hin.
  assert (Hget : dget preds (fst b) = Some (Some w)).
  { rewrite <- Hclf. cbn [fst]. apply in_NoDup_dget; assumption. }
  exists (fst b). split; [exact Hget|]. split.
  - intros clf' Hin'. specialize (Hmax (clf', wget W (Some w) clf')).
    rewrite <- Hclf in Hmax |- *. cbn [snd fst] in *. apply Hmax.
    unfold votes_for. apply in_map_iff. exists clf'. split; [reflexivity|].
    apply in_predicting, Hin'.
  - cbn [bind]. rewrite Hget. reflexivity.
Qed.

(** *** pick_ensemble_label, stage by stage *)

(** The function in closed form: the label is the class of the tie-break, the
    sources are its predictors, and the fallback only replaces the best
    score by the winner's own score. *)
Lemma pick_ensemble_label_cases (preds : dict pred) (W : weights) (prio : list string)
    (use_lowconf : bool) (tau : Q) :
  NoDup (keys preds) ->
  pick_ensemble_label preds W prio use_lowconf tau =
  let t := count_votes W preds in
  match values (score t) with
  | [] => Ret (None, [], 0)
  | s :: ss =>
      w <- tie_break (voters_by_class t) prio (winners_of (score t) (max_from s ss)) ;;
      Ret (Some w, sources preds prio (Some w),
           if use_lowconf && Qltb (max_from s ss) tau
           then class_score W preds w
           else max_from s ss)
  end.
Proof.
  intro Hnd. unfold pick_ensemble_label. cbv zeta.
  destruct (values (score (count_votes W preds))) as [|s ss] eqn:Hv; [reflexivity|].
  destruct (tie_break _ prio _) as [w|] eqn:Htb; [|reflexivity].
  cbn [bind].
  destruct (use_lowconf && Qltb (max_from s ss) tau); [|reflexivity].
  destruct (tie_break_winner W preds prio s ss w Hv Htb) as [Hp [_ Hvg]].
  destruct (lowconf_fallback_same W preds prio _ w Hnd Hp Hvg) as [b [_ [_ Hlc]]].
  rewrite Hlc. reflexivity.
Qed.

Lemma pick_ensemble_label_falsy (preds : dict pred) (W : weights) (prio : list string)
    (use_lowconf : bool) (tau : Q) :
  (forall clf p, In (clf, p) preds -> truthy p = false) ->
  pick_ensemble_label preds W prio use_lowconf tau = Ret (None, [], 0).
Proof.
  intro H. unfold pick_ensemble_label. rewrite (count_votes_falsy W preds H). reflexivity.
Qed.


(** Every tallied score is at most the best score. *)
Lemma score_le_max (preds : dict pred) (W : weights) (s : Q) (ss : list Q) (c : string) :
  values (score (count_votes W preds)) = s :: ss ->
  predicted preds c ->
  class_score W preds c <= max_from s ss.
Proof.
  intros Hv Hp. apply max_from_ge. rewrite <- Hv.
  apply (count_votes_predicted W) in Hp. apply dget_Some_in in Hp.
  unfold values. apply in_map_iff. exists (c, class_score W preds c). split; [reflexivity|exact Hp].
Qed.

Lemma no_score_no_prediction (preds : dict pred) (W : weights) :
  values (score (count_votes W preds)) = [] ->
  forall clf p, In (clf, p) preds -> truthy p = false.
Proof.
  intros Hv clf p Hin. destruct (truthy p) eqn:Ep; [|reflexivity].
  destruct p as [c|]; [|discriminate]. cbn [truthy] in Ep.
  apply negb_true_iff, String.eqb_neq in Ep.
  assert (Hp : predicted preds c) by (split; [exact Ep|exists clf; exact Hin]).
  apply (count_votes_predicted W) in Hp.
  destruct (score (count_votes W preds)); [discriminate|discriminate].
Qed.


(** The label of a call that returns: a predicted class with a score within
    the tolerance of every other, or [None] when nothing is predicted. *)
Lemma pick_ensemble_label_sound (preds : dict pred) (W : weights) (prio : list string)
    (use_lowconf : bool) (tau : Q) (label : pred) (src : list string) (sc : Q) :
  NoDup (keys preds) ->
  pick_ensemble_label preds W prio use_lowconf tau = Ret (label, src, sc) ->
  match label with
  | Some c =>
      predicted preds c
      /\ (forall c', predicted preds c' ->
                     class_score W preds c' < class_score W preds c + score_tol)
      /\ src = sources preds prio (Some c)
      /\ Qabs (sc - class_score W preds c) < score_tol
  | None => (forall clf p, In (clf, p) preds -> truthy p = false) /\ src = [] /\ sc = 0
  end.
Proof.
  intros Hnd. rewrite pick_ensemble_label_cases by exact Hnd. cbv zeta.
  destruct (values (score (count_votes W preds))) as [|s ss] eqn:Hv.
  - intro H. injection H as <- <- <-.
    split; [apply (no_score_no_prediction preds W Hv)|split; reflexivity].
  - destruct (tie_break _ prio _) as [w|] eqn:Htb; [|discriminate].
    cbn [bind]. intro H. injection H as <- <- <-.
    destruct (tie_break_winner W preds prio s ss w Hv Htb) as [Hp [Habs _]].
    split; [exact Hp|]. split; [|split; [reflexivity|]].
    + intros c' Hp'.
      pose proof (score_le_max preds W s ss c' Hv Hp') as Hle.
      apply Qabs_Qlt_condition in Habs. destruct Habs as [Hlo _]. lra.
    + destruct (use_lowconf && Qltb (max_from s ss) tau).
      * apply Qabs_self_tol.
      * rewrite Qabs_Qminus. exact Habs.
Qed.

(** * The claims about the ensemble vote *)

(** C4, as the code has it.  For every prediction map with distinct keys and
    every weight dictionary, the call with [use_lowconf=True] raises exactly
    when the call with [use_lowconf=False] does, and otherwise returns the same
    label and the same sources.  The score is the same when the score without
    the fallback is at least [tau]; below [tau] the fallback returns the
    label's own summed score in place of the best score, and the two differ
    by less than 1e-12. *)
Theorem pick_ensemble_label_lowconf_same_label :
  forall (preds : dict pred) (W : weights) (prio : list string) (tau : Q),
    distinct (keys preds) = true ->
    match pick_ensemble_label preds W prio false tau,
          pick_ensemble_label preds W prio true tau with
    | Ret (l1, src1, s1), Ret (l2, src2, s2) =>
        l1 = l2 /\ src1 = src2
        /\ Qabs (s2 - s1) < score_tol
        /\ (tau <= s1 -> s2 = s1)
        /\ (s1 < tau -> forall c, l2 = Some c -> s2 = class_score W preds c)
    | IndexError, IndexError => True
    | _, _ => False
    end.
Proof.
  intros preds W prio tau Hd. apply distinct_NoDup in Hd.
  rewrite !pick_ensemble_label_cases by exact Hd. cbv zeta.
  destruct (values (score (count_votes W preds))) as [|s ss] eqn:Hv.
  - repeat split; try reflexivity. intros _ c Hc. discriminate.
  - destruct (tie_break _ prio _) as [w|] eqn:Htb; [|exact I].
    cbn [bind andb].
    destruct (tie_break_winner W preds prio s ss w Hv Htb) as [_ [Habs _]].
    split; [reflexivity|]. split; [reflexivity|].
    destruct (Qltb (max_from s ss) tau) eqn:E.
    + apply Qltb_lt in E. split; [exact Habs|]. split.
      * intro Hle. exfalso. apply (Qlt_not_le _ _ E Hle).
      * intros _ c Hc. injection Hc as <-. reflexivity.
    + apply Qltb_ge in E. split; [apply Qabs_self_tol|]. split; [reflexivity|].
      intros Hlt. exfalso. apply (Qlt_not_le _ _ Hlt E).
Qed.

Lemma pick_ensemble_label_lowconf_same_label_witness :
  distinct (keys sample_preds) = true
  /\ match pick_ensemble_label sample_preds sample_W CLF_PRIORITY false TAU,
           pick_ensemble_label sample_preds sample_W CLF_PRIORITY true TAU with
     | Ret (l1, src1, s1), Ret (l2, src2, s2) =>
         l1 = l2 /\ src1 = src2
         /\ Qabs (s2 - s1) < score_tol
         /\ (TAU <= s1 -> s2 = s1)
         /\ (s1 < TAU -> forall c, l2 = Some c -> s2 = class_score sample_W sample_preds c)
     | IndexError, IndexError => True
     | _, _ => False
     end.
Proof.
  split; [reflexivity|].
  apply (pick_ensemble_label_lowconf_same_label sample_preds sample_W CLF_PRIORITY TAU).
  reflexivity.
Defined.

(** C4, as stated, fails: with two classifiers for RIDGE (score 1/2) and one
    for FAN (score 1/2 - 2^-44, within 1e-12 of the best), FAN wins the
    tie-break on its heavier single vote; without the fallback the returned
    score is the best score 1/2, with it the score is FAN's own. *)
Lemma pick_ensemble_label_lowconf_differs :
  exists s_plain s_lowconf,
    pick_ensemble_label sample_preds sample_W CLF_PRIORITY false TAU
    = Ret (Some "FAN"%string, ["SVMv11A2D50"%string], s_plain)
    /\ pick_ensemble_label sample_preds sample_W CLF_PRIORITY true TAU
       = Ret (Some "FAN"%string, ["SVMv11A2D50"%string], s_lowconf)
    /\ s_plain == 1 # 2
    /\ s_lowconf == (1 # 2) - (1 # 17592186044416)
    /\ ~ s_lowconf == s_plain
    /\ pick_ensemble_label sample_preds sample_W CLF_PRIORITY true TAU
       <> pick_ensemble_label sample_preds sample_W CLF_PRIORITY false TAU.
Proof.
  eexists _, _. split; [vm_compute; reflexivity|]. split; [vm_compute; reflexivity|].
  split; [reflexivity|]. split; [reflexivity|]. split; [intro H; discriminate H|].
  vm_compute. intro H. discriminate H.
Qed.

(** * The row loop of main *)

Lemma truthy_field_pred (v : option string) :
  truthy (field_pred v) = truthy v.
Proof.
  destruct v as [s|]; [|reflexivity]. cbn.
  destruct (String.eqb s "") eqn:E; cbn; [reflexivity|]. rewrite E. reflexivity.
Qed.

Lemma field_pred_truthy (v : option string) : truthy v = true -> field_pred v = v.
Proof.
  destruct v as [s|]; [|discriminate]. cbn. intro H.
  apply negb_true_iff in H. rewrite H. reflexivity.
Qed.

(** The dict of a row with its four fields. *)
Lemma row_preds_four (rt50 rt60 svm50 svm60 : option string) :
  row_preds [rt50; rt60; svm50; svm60] =
  filter (fun kv => truthy (snd kv))
    [ ("RTv11A2D50"%string, field_pred rt50); ("RTv11A2D60"%string, field_pred rt60);
      ("SVMv11A2D50"%string, field_pred svm50); ("SVMv11A2D60"%string, field_pred svm60) ].
Proof. reflexivity. Qed.

Lemma filter_keys_NoDup {V} (f : string * V -> bool) (d : dict V) :
  NoDup (keys d) -> NoDup (keys (filter f d)).
Proof.
  unfold keys. induction d as [|[k v] d IH]; cbn; [constructor|].
  intro H. inversion H as [|? ? Hnot Hnd]. subst.
  destruct (f (k, v)); cbn; [|apply IH, Hnd].
  constructor; [|apply IH, Hnd].
  intro Hin. apply Hnot. apply in_map_iff in Hin. destruct Hin as [[k' v'] [Hk Hin]].
  apply filter_In in Hin. apply in_map_iff. exists (k', v'). split; [exact Hk|apply Hin].
Qed.

Lemma combine_keys_NoDup {V U} (d : dict V) (l : list U) (g : string * V * U -> string * pred) :
  (forall x, fst (g x) = fst (fst x)) ->
  NoDup (keys d) -> NoDup (keys (map g (combine d l))).
Proof.
  intros Hg. unfold keys. revert l. induction d as [|[k v] d IH]; intros l H; cbn; [constructor|].
  destruct l as [|u l]; cbn; [constructor|].
  inversion H as [|? ? Hnot Hnd]. subst. constructor; [|apply IH, Hnd].
  rewrite Hg. cbn. intro Hin. apply Hnot.
  apply in_map_iff in Hin. destruct Hin as [y [Hy Hin]].
  apply in_map_iff in Hin. destruct Hin as [[[k' v'] u'] [Hx Hin]]. subst y.
  rewrite Hg in Hy. cbn in Hy. subst k'.
  apply in_combine_l in Hin. apply in_map_iff. exists (k, v'). split; [reflexivity|exact Hin].
Qed.

(** Whatever the fields hold, the keys of [preds] are distinct. *)
Lemma row_preds_NoDup (preds_vals : list (option string)) : NoDup (keys (row_preds preds_vals)).
Proof.
  unfold row_preds. apply filter_keys_NoDup. apply combine_keys_NoDup.
  - intros [[k f] u]. reflexivity.
  - apply distinct_NoDup. reflexivity.
Qed.


(** Where a field holds a class name, the classifier's prediction is that
    name, and the dict has no other entries. *)
Lemma in_row_preds (rt50 rt60 svm50 svm60 : option string) (clf : string) (p : pred) :
  In (clf, p) (row_preds [rt50; rt60; svm50; svm60]) <->
  truthy p = true
  /\ ((clf = "RTv11A2D50"%string /\ p = rt50) \/ (clf = "RTv11A2D60"%string /\ p = rt60)
      \/ (clf = "SVMv11A2D50"%string /\ p = svm50) \/ (clf = "SVMv11A2D60"%string /\ p = svm60)).
Proof.
  rewrite row_preds_four, filter_In. cbn [snd In]. split.
  - intros [Hin Ht]. split; [exact Ht|].
    destruct Hin as [H|[H|[H|[H|[]]]]]; injection H as <- <-;
      rewrite truthy_field_pred in Ht; rewrite (field_pred_truthy _ Ht); tauto.
  - intros [Ht H]. split; [|exact Ht].
    destruct H as [[-> ->]|[[-> ->]|[[-> ->]|[-> ->]]]];
      rewrite (field_pred_truthy _ Ht); tauto.
Qed.

(** The sources are the predictors of the label, in priority order. *)
Lemma in_sources (preds : dict pred) (prio : list string) (w : pred) (clf : string) :
  In clf (sources preds prio w) <-> In (clf, w) preds.
Proof. unfold sources. rewrite in_sorted_by. apply in_predicting. Qed.


(** * The claims about the row loop *)



(** C9.  For a segment whose prediction fields are all NULL or the empty
    string, [pick_ensemble_label] returns [(None, [], 0.0)], on the dict
    [main] passes (falsy entries dropped) and on the dict of the raw field
    values alike, and the update loop writes NULL to the E5 label field, NULL
    to the E5_src field and the value 0.0, not NULL, to the E5_score field. *)
Theorem all_null_row :
  forall (W : weights) (elev_by_oid : list (Z * option Q)) (oid : Z)
         (preds_vals : list (option string)),
    (forall v, In v preds_vals -> v = None \/ v = Some EmptyString) ->
    pick_ensemble_label (row_preds preds_vals) W CLF_PRIORITY USE_LOWCONF_FALLBACK TAU
    = Ret (None, [], 0)
    /\ pick_ensemble_label (combine (keys CLASS_FIELDS) preds_vals) W CLF_PRIORITY
         USE_LOWCONF_FALLBACK TAU
       = Ret (None, [], 0)
    /\ main_row W elev_by_oid oid preds_vals = Ret (None, None, Some 0).
Proof.
  intros W elev_by_oid oid preds_vals Hall.
  assert (Hempty : row_preds preds_vals = []).
  { unfold row_preds. generalize CLASS_FIELDS as fields.
    induction preds_vals as [|v vs IH]; intros [|[k f] fields]; try reflexivity.
    cbn [combine map filter fst snd].
    assert (Hv : truthy (field_pred v) = false).
    { destruct (Hall v (or_introl eq_refl)) as [->| ->]; reflexivity. }
    rewrite Hv. apply IH. intros v' Hin. apply Hall. right. exact Hin. }
  assert (Hraw : pick_ensemble_label (combine (keys CLASS_FIELDS) preds_vals) W CLF_PRIORITY
                   USE_LOWCONF_FALLBACK TAU = Ret (None, [], 0)).
  { apply pick_ensemble_label_falsy. intros clf p Hin. apply in_combine_r in Hin.
    destruct (Hall p Hin) as [->| ->]; reflexivity. }
  unfold main_row, process_row. rewrite Hempty. cbn [pick_ensemble_label count_votes
    fold_left empty_tally score values map bind].
  split; [reflexivity|]. split; [exact Hraw|].
  unfold ENABLE_WB_ELEV_RULE, wb_override. cbn [dget].
  destruct (elev_get elev_by_oid oid) as [z|]; [|reflexivity].
  destruct (Qleb z ELEV_THRESH); reflexivity.
Qed.

Lemma all_null_row_witness :
  (forall v, In v [None; Some EmptyString; None; None] -> v = None \/ v = Some EmptyString)
  /\ main_row sample_W [(3%Z, Some (100 # 1))] 3%Z [None; Some EmptyString; None; None]
     = Ret (None, None, Some 0).
Proof.
  assert (H : forall v, In v [None; Some EmptyString; None; None]
                        -> v = None \/ v = Some EmptyString).
  { intros v Hin. simpl in Hin. intuition. }
  split; [exact H|].
  apply (all_null_row sample_W [(3%Z, Some (100 # 1))] 3%Z
           [None; Some EmptyString; None; None] H).
Defined.

(** * The weight tables *)

Lemma clamp0_nonneg (v : Q) : 0 <= clamp0 v.
Proof.
  unfold clamp0. destruct (Qltb 0 v) eqn:E; [|apply Qle_refl].
  apply Qltb_lt in E. apply Qlt_le_weak, E.
Qed.

Lemma read_metric_table_snoc (parse : string -> option fval)
    (rows : list (option string * cell)) (r : option string * cell) :
  read_metric_table parse (rows ++ [r])
  = dupd (read_metric_table parse rows) (str_cls (fst r))
         (fun _ => clamp0 (metric_value parse (snd r))).
Proof. unfold read_metric_table. rewrite fold_left_app. reflexivity. Qed.

(** A class keeps the value of its last row. *)
Lemma read_metric_table_last (parse : string -> option fval)
    (pre post : list (option string * cell)) (cls : option string) (c : cell) :
  (forall r, In r post -> str_cls (fst r) <> str_cls cls) ->
  dget (read_metric_table parse (pre ++ (cls, c) :: post)) (str_cls cls)
  = Some (clamp0 (metric_value parse c)).
Proof.
  induction post as [|r post IH] using rev_ind; intro Hpost.
  - rewrite read_metric_table_snoc, dget_dupd. cbn [fst snd].
    rewrite String.eqb_refl. reflexivity.
  - change (pre ++ (cls, c) :: post ++ [r]) with (pre ++ ((cls, c) :: post) ++ [r]).
    rewrite app_assoc, read_metric_table_snoc, dget_dupd.
    assert (Hr : str_cls (fst r) <> str_cls cls).
    { apply Hpost, in_or_app. right. left. reflexivity. }
    apply String.eqb_neq in Hr. rewrite Hr. apply IH.
    intros r' Hin. apply Hpost, in_or_app. left. exact Hin.
Qed.

(** C8.  [read_metric_table] has no failing case: where [float(val)] raises
    (a missing value, a text that is not a number) and where it gives NaN the
    row stores 0.0, and a negative value is stored as 0.0; the value a class
    has in the returned map is the one stored by its last row, and every value
    of the map is a non-negative float. *)
Theorem read_metric_table_nonneg :
  forall (parse_float : string -> option fval) (rows : list (option string * cell)),
    (forall cls v, dget (read_metric_table parse_float rows) cls = Some v -> 0 <= v)
    /\ (forall pre cls c post,
          rows = pre ++ (cls, c) :: post ->
          (forall r, In r post -> str_cls (fst r) <> str_cls cls) ->
          dget (read_metric_table parse_float rows) (str_cls cls)
          = Some (match to_float parse_float c with
                  | None => 0
                  | Some FNaN => 0
                  | Some (FNum q) => if Qltb 0 q then q else 0
                  end)).
Proof.
  intros parse rows. split.
  - induction rows as [|r rows IH] using rev_ind; intros cls v.
    + discriminate.
    + rewrite read_metric_table_snoc, dget_dupd.
      destruct (String.eqb (str_cls (fst r)) cls).
      * intro H. injection H as <-. apply clamp0_nonneg.
      * apply IH.
  - intros pre cls c post -> Hpost.
    rewrite read_metric_table_last by exact Hpost. f_equal.
    unfold metric_value, clamp0.
    destruct (to_float parse c) as [[q|]|]; reflexivity.
Qed.

Lemma read_metric_table_nonneg_witness :
  read_metric_table sample_parse sample_rows
  = [ ("RIDGE", 0); ("FAN", 0); ("WATER BODY", 0); ("None", 0);
      ("VALLEY BOTTOM", 8 # 10) ]%string
  /\ dget (read_metric_table sample_parse sample_rows) "FAN" = Some 0.
Proof.
  split; [reflexivity|].
  apply (proj2 (read_metric_table_nonneg sample_parse sample_rows)
           [(Some "RIDGE", CFloat (FNum (1 # 2)))]%string (Some "FAN"%string)
           (CFloat (FNum (-(1) # 4)))
           [ (Some "WATER BODY", CNull); (None, CFloat FNaN);
             (Some "RIDGE", CText "n/a"); (Some "VALLEY BOTTOM", CText "0.8") ]%string
           eq_refl).
  intros r Hin. simpl in Hin.
  destruct Hin as [<-|[<-|[<-|[<-|[]]]]]; discriminate.
Defined.

Lemma fold_left_Qplus_shift (xs : list Q) (a : Q) :
  fold_left Qplus xs a == a + sum xs.
Proof.
  unfold sum. revert a. induction xs as [|x xs IH]; intro a; cbn [fold_left].
  - ring.
  - rewrite (IH (a + x)), (IH (0 + x)). ring.
Qed.

Lemma sum_cons (x : Q) (xs : list Q) : sum (x :: xs) == x + sum xs.
Proof.
  unfold sum at 1. cbn [fold_left]. rewrite fold_left_Qplus_shift. ring.
Qed.

Lemma sum_nonneg (xs : list Q) : (forall w, In w xs -> 0 <= w) -> 0 <= sum xs.
Proof.
  induction xs as [|x xs IH]; intro H.
  - apply Qle_refl.
  - rewrite sum_cons.
    assert (0 <= x) by (apply H; left; reflexivity).
    assert (0 <= sum xs) by (apply IH; intros w Hw; apply H; right; exact Hw).
    lra.
Qed.

(** * The accuracy metrics *)

Import Accuracy.

Lemma safe_div_zero (a b : Q) : b == 0 -> safe_div a b = 0.
Proof.
  intro H. unfold safe_div, nonzero. apply Qeq_bool_iff in H. rewrite H. reflexivity.
Qed.

Lemma safe_div_nonzero (a b : Q) : ~ b == 0 -> safe_div a b = a / b.
Proof.
  intro H. unfold safe_div, nonzero.
  destruct (Qeq_bool b 0) eqn:E; [|reflexivity].
  apply Qeq_bool_iff in E. contradiction.
Qed.

Lemma f1_of_zero (pa ua : Q) : pa + ua == 0 -> f1_of pa ua = 0.
Proof.
  intro H. unfold f1_of. apply Qeq_bool_iff in H. rewrite H. reflexivity.
Qed.

Lemma f1_of_nonzero (pa ua : Q) : ~ pa + ua == 0 -> f1_of pa ua = 2 * (pa * ua) / (pa + ua).
Proof.
  intro H. unfold f1_of.
  destruct (Qeq_bool (pa + ua) 0) eqn:E.
  - apply Qeq_bool_iff in E. contradiction.
  - cbn [negb]. apply safe_div_nonzero, H.
Qed.

(** C7.  For every class row of the per-class accuracy table:
    Producer_Accuracy = Correct_Area / Ref_Total_Area,
    User_Accuracy = Correct_Area / Pred_Total_Area,
    IoU = Correct_Area / (Ref_Total_Area + Pred_Total_Area - Correct_Area) and
    F1_Score = 2*(P*U)/(P+U), each being 0.0 when its denominator is zero; the
    overall accuracy is the sum of Correct_Area over the table divided by the
    sum of Ref_Total_Area, or 0.0 when that sum is zero. *)
Theorem accuracy_metrics_formulas :
  forall (df : list areas) (a : areas) (m : metrics) (df_out : list (areas * metrics)),
    In (a, m) (add_metrics df) ->
    let c := Correct_Area a in
    let r := Ref_Total_Area a in
    let p := Pred_Total_Area a in
    let P := Producer_Accuracy m in
    let U := User_Accuracy m in
    (r == 0 -> P = 0) /\ (~ r == 0 -> P = c / r)
    /\ (p == 0 -> U = 0) /\ (~ p == 0 -> U = c / p)
    /\ (r + p - c == 0 -> IoU m = 0) /\ (~ r + p - c == 0 -> IoU m = c / (r + p - c))
    /\ (P + U == 0 -> F1_Score m = 0) /\ (~ P + U == 0 -> F1_Score m = 2 * (P * U) / (P + U))
    /\ let correct := sum (map (fun am => Correct_Area (fst am)) df_out) in
       let ref := sum (map (fun am => Ref_Total_Area (fst am)) df_out) in
       (ref == 0 -> overall_accuracy df_out = 0)
       /\ (~ ref == 0 -> overall_accuracy df_out = correct / ref).
Proof.
  intros df a m df_out Hin c r p P U.
  unfold add_metrics in Hin. apply in_map_iff in Hin.
  destruct Hin as [a' [Heq _]]. injection Heq as -> <-.
  repeat match goal with |- _ /\ _ => split end.
  - apply safe_div_zero.
  - apply safe_div_nonzero.
  - apply safe_div_zero.
  - apply safe_div_nonzero.
  - apply safe_div_zero.
  - apply safe_div_nonzero.
  - apply f1_of_zero.
  - apply f1_of_nonzero.
  - intros correct ref. split; intro H; unfold overall_accuracy, nonzero; fold correct ref.
    + apply Qeq_bool_iff in H. rewrite H. reflexivity.
    + destruct (Qeq_bool ref 0) eqn:E; [|reflexivity].
      apply Qeq_bool_iff in E. contradiction.
Qed.

Lemma accuracy_metrics_formulas_witness :
  In (sample_area, compute_metrics sample_area) (add_metrics [sample_unseen; sample_area])
  /\ Producer_Accuracy (compute_metrics sample_area) = 30 / 40
  /\ User_Accuracy (compute_metrics sample_area) = 30 / 60
  /\ IoU (compute_metrics sample_area) = 30 / (40 + 60 - 30)
  /\ IoU (compute_metrics sample_unseen) == 0
  /\ overall_accuracy (add_metrics [sample_unseen; sample_area]) == 30 # 50.
Proof.
  assert (Hin : In (sample_area, compute_metrics sample_area)
                   (add_metrics [sample_unseen; sample_area])).
  { right. left. reflexivity. }
  destruct (accuracy_metrics_formulas [sample_unseen; sample_area] sample_area
              (compute_metrics sample_area) (add_metrics [sample_unseen; sample_area]) Hin)
    as [_ [HP [_ [HU [_ [HI _]]]]]].
  split; [exact Hin|].
  split; [apply HP; discriminate|].
  split; [apply HU; discriminate|].
  split; [apply HI; discriminate|].
  split; reflexivity.
Defined.

(** * The correlation pairs *)

Import Correlation.

Lemma in_combine_seq {A} (l : list A) (a i : nat) (x : A) :
  In (i, x) (combine (seq a (List.length l)) l)
  <-> (a <= i)%nat /\ nth_error l (i - a) = Some x.
Proof.
  revert a. induction l as [|y l IH]; intro a; cbn [List.length seq combine In].
  - split; [tauto|]. intros [_ H]. destruct (i - a)%nat; discriminate.
  - rewrite IH. split.
    + intros [H|[Hle Hn]].
      * injection H as <- <-. split; [lia|]. rewrite Nat.sub_diag. reflexivity.
      * split; [lia|]. replace (i - a)%nat with (S (i - S a)) by lia. exact Hn.
    + intros [Hle Hn]. destruct (Nat.eq_dec a i) as [<-|Hne].
      * left. rewrite Nat.sub_diag in Hn. cbn in Hn. congruence.
      * right. split; [lia|].
        replace (i - a)%nat with (S (i - S a)) in Hn by lia. exact Hn.
Qed.

Lemma in_enumerate {A} (l : list A) (i : nat) (x : A) :
  In (i, x) (enumerate l) <-> nth_error l i = Some x.
Proof.
  unfold enumerate. rewrite in_combine_seq, Nat.sub_0_r. split; [tauto|].
  intro H. split; [lia|exact H].
Qed.

(** Items built from a list with positions, each carrying its position, are
    distinct when the items of one position are. *)
Lemma NoDup_flat_map_seq {A B} (f : nat * A -> list B) (pos : B -> nat)
    (l : list A) (a : nat) :
  (forall ix b, In b (f ix) -> pos b = fst ix) ->
  (forall ix, NoDup (f ix)) ->
  NoDup (flat_map f (combine (seq a (List.length l)) l)).
Proof.
  intros Hpos Hnd. revert a. induction l as [|x l IH]; intro a;
    cbn [List.length seq combine flat_map]; [constructor|].
  apply NoDup_app; [apply Hnd|apply IH|].
  intros b Hb Hb'. apply Hpos in Hb. cbn [fst] in Hb.
  apply in_flat_map in Hb'. destruct Hb' as [[i y] [Hin Hb']].
  apply Hpos in Hb'. cbn [fst] in Hb'.
  apply in_combine_seq in Hin. lia.
Qed.

Lemma stack_cells (m : frame) : stack m = map (labelled m) (cells m).
Proof.
  unfold stack, cells. generalize (enumerate (rows m)) as rs.
  induction rs as [|ir rs IH]; cbn [flat_map map]; [reflexivity|].
  rewrite map_app, IH. f_equal.
  generalize (enumerate (snd ir)) as cs.
  induction cs as [|jx cs IHc]; cbn [flat_map map]; [reflexivity|].
  rewrite map_app, IHc. f_equal. destruct (snd jx); reflexivity.
Qed.

Lemma in_cells (m : frame) (i j : nat) (r : Q) :
  In (i, j, r) (cells m) <-> cell_at m i j = Some r.
Proof.
  unfold cells, cell_at. rewrite in_flat_map. split.
  - intros [[i' row] [Hrow Hin]]. apply in_enumerate in Hrow.
    apply in_flat_map in Hin. destruct Hin as [[j' x] [Hx Hin]].
    apply in_enumerate in Hx. cbn [fst snd] in Hin, Hx.
    destruct x as [r'|]; [|destruct Hin]. destruct Hin as [H|[]].
    injection H as -> -> ->. rewrite Hrow, Hx. reflexivity.
  - intro H. destruct (nth_error (rows m) i) as [row|] eqn:Hrow; [|discriminate].
    destruct (nth_error row j) as [x|] eqn:Hx; [|discriminate]. subst x.
    exists (i, row). split; [apply in_enumerate, Hrow|].
    apply in_flat_map. exists (j, Some r). split; [apply in_enumerate, Hx|].
    left. reflexivity.
Qed.

Lemma NoDup_cells (m : frame) : NoDup (map fst (cells m)).
Proof.
  unfold cells.
  assert (Hmap : forall {A B C} (g : B -> C) (f : A -> list B) (l : list A),
             map g (flat_map f l) = flat_map (fun x => map g (f x)) l).
  { intros A B C g f l. induction l as [|x l IH]; cbn; [reflexivity|].
    rewrite map_app, IH. reflexivity. }
  rewrite Hmap. unfold enumerate at 2.
  apply (NoDup_flat_map_seq _ fst).
  - intros [i row] b Hb. cbn [fst snd] in *. apply in_map_iff in Hb.
    destruct Hb as [[[i' j'] r] [<- Hin]]. apply in_flat_map in Hin.
    destruct Hin as [[j x] [_ Hin]]. cbn [fst snd] in Hin.
    destruct x; [|destruct Hin]. destruct Hin as [H|[]]. injection H as <- _ _. reflexivity.
  - intros [i row]. cbn [fst snd]. rewrite Hmap. unfold enumerate.
    apply (NoDup_flat_map_seq _ snd).
    + intros [j x] b Hb. cbn [fst snd] in *. destruct x; [|destruct Hb].
      destruct Hb as [<-|[]]. reflexivity.
    + intros [j x]. cbn [snd]. destruct x; cbn; repeat constructor. intros [].
Qed.

Lemma nth_error_combine_seq {A} (l : list A) (a i : nat) :
  nth_error (combine (seq a (List.length l)) l) i
  = option_map (fun x => ((a + i)%nat, x)) (nth_error l i).
Proof.
  revert a i. induction l as [|x l IH]; intros a i; destruct i; cbn; try reflexivity.
  - rewrite Nat.add_0_r. reflexivity.
  - rewrite IH. destruct (nth_error l i); cbn; [|reflexivity].
    f_equal. f_equal. lia.
Qed.

Lemma nth_error_enumerate {A} (l : list A) (i : nat) :
  nth_error (enumerate l) i = option_map (fun x => (i, x)) (nth_error l i).
Proof. unfold enumerate. apply nth_error_combine_seq. Qed.

Lemma cell_upper_tri (m : frame) (i j : nat) :
  cell_at (upper_tri m) i j = if triu1 i j then cell_at m i j else None.
Proof.
  unfold cell_at, upper_tri. cbn [rows].
  rewrite nth_error_map, nth_error_enumerate.
  destruct (nth_error (rows m) i) as [row|]; cbn [option_map fst snd].
  - rewrite nth_error_map, nth_error_enumerate.
    destruct (nth_error row j) as [x|]; cbn [option_map fst snd];
      destruct (triu1 i j); reflexivity.
  - destruct (triu1 i j); reflexivity.
Qed.

Lemma in_cells_upper_tri (m : frame) (i j : nat) (r : Q) :
  In (i, j, r) (cells (upper_tri m)) <-> (i < j)%nat /\ cell_at m i j = Some r.
Proof.
  rewrite in_cells, cell_upper_tri. unfold triu1.
  destruct (Nat.ltb i j) eqn:E.
  - apply Nat.ltb_lt in E. tauto.
  - apply Nat.ltb_ge in E. split; [discriminate|]. intros [H _]. lia.
Qed.

Lemma high_corr_filtered_cells (m : frame) :
  high_corr_filtered m
  = map (labelled m)
        (filter (fun t => Qltb threshold (Qabs (snd t))) (cells (upper_tri m))).
Proof.
  unfold high_corr_filtered. rewrite stack_cells.
  assert (Hl : forall t, labelled (upper_tri m) t = labelled m t) by reflexivity.
  induction (cells (upper_tri m)) as [|t l IH]; cbn [map filter]; [reflexivity|].
  rewrite Hl. cbn [labelled snd].
  destruct (Qltb threshold (Qabs (snd t))); cbn [map]; rewrite IH; reflexivity.
Qed.

(** C10.  The highly-correlated-pairs output takes the cells of the strict
    upper triangle of the correlation matrix, each position once and none on
    or below the diagonal, so of two distinct rasters only the pair in
    matrix order is looked at; it keeps exactly the pairs whose coefficient
    has an absolute value strictly above 0.85; and [high_corr_pairs.csv] is
    written, with these pairs, only when there is at least one. *)
Theorem high_corr_pairs_spec :
  forall (m : frame),
    let considered := cells (upper_tri m) in
    let kept := filter (fun t => Qltb threshold (Qabs (snd t))) considered in
    threshold == 85 # 100
    /\ NoDup (map fst considered)
    /\ (forall i j r, In (i, j, r) considered <-> (i < j)%nat /\ cell_at m i j = Some r)
    /\ (forall i j r, In (i, j, r) kept
                      <-> (i < j)%nat /\ cell_at m i j = Some r /\ threshold < Qabs r)
    /\ high_corr_filtered m = map (labelled m) kept
    /\ (high_corr_csv m = None <-> kept = [])
    /\ (forall hs, high_corr_csv m = Some hs <-> hs = high_corr_filtered m /\ hs <> []).
Proof.
  intros m considered kept.
  split; [reflexivity|]. split; [apply NoDup_cells|].
  split; [apply in_cells_upper_tri|]. split.
  { intros i j r. unfold kept. rewrite filter_In. cbn [snd].
    unfold considered. rewrite in_cells_upper_tri, Qltb_lt. tauto. }
  split; [apply high_corr_filtered_cells|].
  unfold high_corr_csv. rewrite high_corr_filtered_cells. fold considered. fold kept.
  split.
  - destruct kept as [|t l]; cbn [map]; split; intro H; try reflexivity; discriminate.
  - intro hs. destruct kept as [|t l]; cbn [map]; split.
    + discriminate.
    + intros [-> H]. congruence.
    + intro H. injection H as <-. split; [reflexivity|discriminate].
    + intros [-> _]. reflexivity.
Qed.

(** * Further properties of the weight tables *)


(** * Further properties of the row loop *)

(** The source string of a row names at most the four classifiers. *)
Lemma row_sources_length (rt50 rt60 svm50 svm60 : option string) (w : pred) :
  (String.length (join "+" (sources (row_preds [rt50; rt60; svm50; svm60]) CLF_PRIORITY w))
   <= 45)%nat.
Proof.
  rewrite row_preds_four. unfold sources, predicting. cbn [filter snd].
  apply Nat.leb_le.
  destruct (truthy (field_pred rt50)); cbn [filter snd];
    [destruct (pred_eqb (field_pred rt50) w)|];
    (destruct (truthy (field_pred rt60)); cbn [filter snd];
       [destruct (pred_eqb (field_pred rt60) w)|]);
    (destruct (truthy (field_pred svm50)); cbn [filter snd];
       [destruct (pred_eqb (field_pred svm50) w)|]);
    (destruct (truthy (field_pred svm60)); cbn [filter snd];
       [destruct (pred_eqb (field_pred svm60) w)|]);
    vm_compute; reflexivity.
Qed.

(** What a row gets written, read off the result of [process_row]. *)
Lemma process_row_inv (enable_wb use_lowconf : bool) (tau : Q) (W : weights)
    (elev_by_oid : list (Z * option Q)) (oid : Z)
    (rt50 rt60 svm50 svm60 : option string) (wr : written) :
  let preds := row_preds [rt50; rt60; svm50; svm60] in
  process_row enable_wb use_lowconf tau W elev_by_oid oid [rt50; rt60; svm50; svm60] = Ret wr ->
  (exists c sc, predicted preds c
                /\ wr = (Some c, Some (join "+" (sources preds CLF_PRIORITY (Some c))), Some sc))
  \/ ((forall clf p, In (clf, p) preds -> truthy p = false) /\ wr = (None, None, Some 0)).
Proof.
  intros preds. unfold process_row. fold preds.
  destruct (pick_ensemble_label preds W CLF_PRIORITY use_lowconf tau)
    as [[[label src] sc]|] eqn:Hpick; [|discriminate].
  cbn [bind]. intro H. injection H as <-.
  pose proof (pick_ensemble_label_sound preds W CLF_PRIORITY use_lowconf tau label src sc
                (row_preds_NoDup _) Hpick) as Hl.
  assert (Hwrite : forall c sc', predicted preds c ->
            exists sc'', write_row (Some c, sources preds CLF_PRIORITY (Some c), sc')
                  = (Some c, Some (join "+" (sources preds CLF_PRIORITY (Some c))), Some sc'')).
  { intros c sc' [Hc [clf Hin]]. exists sc'. unfold write_row. cbn [truthy].
    apply String.eqb_neq in Hc. rewrite Hc. cbn [negb].
    apply in_sources with (prio := CLF_PRIORITY) in Hin.
    destruct (sources preds CLF_PRIORITY (Some c)); [destruct Hin|reflexivity]. }
  assert (Hkeep : (exists c sc0, predicted preds c
                     /\ write_row (label, src, sc)
                        = (Some c, Some (join "+" (sources preds CLF_PRIORITY (Some c))), Some sc0))
                  \/ ((forall clf p, In (clf, p) preds -> truthy p = false)
                      /\ write_row (label, src, sc) = (None, None, Some 0))).
  { destruct label as [c|].
    - destruct Hl as [Hp [_ [-> _]]]. left. destruct (Hwrite c sc Hp) as [sc'' Hw].
      exists c, sc''. split; assumption.
    - destruct Hl as [Hf [-> ->]]. right. split; [exact Hf|reflexivity]. }
  destruct enable_wb; [|exact Hkeep].
  unfold wb_override.
  destruct (elev_get elev_by_oid oid) as [z|]; [|exact Hkeep].
  destruct (Qleb z ELEV_THRESH); [|exact Hkeep].
  destruct (dget preds SVM_RIVER_CLF) as [p|] eqn:Hsvm; [|exact Hkeep].
  destruct (pred_eqb p (Some CLS_WATER)) eqn:Ep; [|exact Hkeep].
  apply pred_eqb_eq in Ep. subst p. apply dget_Some_in in Hsvm.
  assert (Hp : predicted preds CLS_WATER).
  { split; [discriminate|]. exists SVM_RIVER_CLF. exact Hsvm. }
  left. destruct (Hwrite CLS_WATER (weight_behind W preds (Some CLS_WATER)) Hp) as [sc'' Hw].
  exists CLS_WATER, sc''. split; assumption.
Qed.

(** X5.  The ensemble never invents a class: a label written to E5 is the
    non-empty value of at least one of the row's four prediction fields, and
    then E5_src is written too; E5 is NULL only for a row whose four fields
    are all NULL or empty, which gets a NULL E5_src and the score 0.0.  This
    holds with or without the water-body rule and the fallback. *)
Theorem written_label_is_a_prediction :
  forall (enable_wb use_lowconf : bool) (tau : Q) (W : weights)
         (elev_by_oid : list (Z * option Q)) (oid : Z)
         (rt50 rt60 svm50 svm60 : option string)
         (label src : option string) (sc : option Q),
    process_row enable_wb use_lowconf tau W elev_by_oid oid [rt50; rt60; svm50; svm60]
    = Ret (label, src, sc) ->
    match label with
    | Some c => c <> EmptyString /\ In (Some c) [rt50; rt60; svm50; svm60] /\ src <> None
    | None => src = None /\ sc = Some 0
              /\ forall v, In v [rt50; rt60; svm50; svm60] -> v = None \/ v = Some EmptyString
    end.
Proof.
  intros enable_wb use_lowconf tau W elev oid rt50 rt60 svm50 svm60 label src sc H.
  apply process_row_inv in H. cbv zeta in H.
  destruct H as [[c [sc' [[Hc [clf Hin]] Hw]]]|[Hf Hw]]; injection Hw as -> -> ->.
  - split; [exact Hc|]. split; [|discriminate].
    apply in_row_preds in Hin. destruct Hin as [_ Hin]. cbn [In].
    destruct Hin as [[_ <-]|[[_ <-]|[[_ <-]|[_ <-]]]]; tauto.
  - split; [reflexivity|]. split; [reflexivity|].
    assert (Hfalsy : forall clf v, In (clf, v) [ ("RTv11A2D50"%string, rt50);
                ("RTv11A2D60"%string, rt60); ("SVMv11A2D50"%string, svm50);
                ("SVMv11A2D60"%string, svm60) ] -> truthy v = false).
    { intros clf v Hin. destruct (truthy v) eqn:Et; [|reflexivity].
      rewrite <- Et. apply (Hf clf v). apply in_row_preds. split; [exact Et|].
      cbn [In] in Hin.
      destruct Hin as [H|[H|[H|[H|[]]]]]; injection H as <- <-; tauto. }
    intros v Hv.
    assert (Ht : truthy v = false).
    { cbn [In] in Hv. destruct Hv as [<-|[<-|[<-|[<-|[]]]]];
        eapply Hfalsy; cbn [In]; eauto. }
    destruct v as [s|]; [|left; reflexivity]. right. cbn [truthy] in Ht.
    apply negb_false_iff, String.eqb_eq in Ht. subst s. reflexivity.
Qed.

Lemma written_label_is_a_prediction_witness :
  process_row true true TAU sample_W [(7%Z, Some (150 # 1))] 7%Z
    [Some "RIDGE"; Some ""; None; Some "WATER BODY"]%string
  = Ret (Some "WATER BODY"%string, Some "SVMv11A2D60"%string, Some (4 # 10))
  /\ In (Some "WATER BODY"%string) [Some "RIDGE"; Some ""; None; Some "WATER BODY"]%string.
Proof.
  split; [reflexivity|].
  apply (written_label_is_a_prediction true true TAU sample_W [(7%Z, Some (150 # 1))] 7%Z
           (Some "RIDGE"%string) (Some ""%string) None (Some "WATER BODY"%string)
           (Some "WATER BODY"%string) (Some "SVMv11A2D60"%string) (Some (4 # 10)) eq_refl).
Defined.

(** X6.  The source string always fits its field: whatever a row holds, the
    text written to E5_src is at most 45 characters long, within the
    [E5_SRC_LEN] = 60 characters the field is created with. *)
Theorem written_src_fits_field :
  forall (enable_wb use_lowconf : bool) (tau : Q) (W : weights)
         (elev_by_oid : list (Z * option Q)) (oid : Z)
         (rt50 rt60 svm50 svm60 : option string)
         (label : option string) (src : string) (sc : option Q),
    process_row enable_wb use_lowconf tau W elev_by_oid oid [rt50; rt60; svm50; svm60]
    = Ret (label, Some src, sc) ->
    (String.length src <= 45)%nat /\ (String.length src <= E5_SRC_LEN)%nat.
Proof.
  intros enable_wb use_lowconf tau W elev oid rt50 rt60 svm50 svm60 label src sc H.
  apply process_row_inv in H. cbv zeta in H.
  destruct H as [[c [sc' [_ Hw]]]|[_ Hw]]; [|discriminate].
  injection Hw as _ -> _.
  pose proof (row_sources_length rt50 rt60 svm50 svm60 (Some c)) as Hlen.
  split; [exact Hlen|]. unfold E5_SRC_LEN. lia.
Qed.

Lemma written_src_fits_field_witness :
  process_row true true TAU sample_W [] 7%Z
    [Some "RIDGE"; Some "RIDGE"; Some "RIDGE"; Some "RIDGE"]%string
  = Ret (Some "RIDGE"%string,
         Some "SVMv11A2D60+RTv11A2D60+SVMv11A2D50+RTv11A2D50"%string, Some (256 # 256))
  /\ (String.length "SVMv11A2D60+RTv11A2D60+SVMv11A2D50+RTv11A2D50" <= E5_SRC_LEN)%nat.
Proof.
  split; [reflexivity|].
  apply (written_src_fits_field true true TAU sample_W [] 7%Z
           (Some "RIDGE"%string) (Some "RIDGE"%string) (Some "RIDGE"%string)
           (Some "RIDGE"%string) (Some "RIDGE"%string)
           "SVMv11A2D60+RTv11A2D60+SVMv11A2D50+RTv11A2D50"%string (Some (256 # 256)) eq_refl).
Defined.

(** * Further properties of the accuracy metrics *)

Lemma safe_div_unit (a b : Q) : 0 <= a -> a <= b -> 0 <= safe_div a b <= 1.
Proof.
  intros Ha Hab. destruct (Qeq_dec b 0) as [Hz|Hnz].
  - rewrite safe_div_zero by exact Hz. split; [apply Qle_refl|discriminate].
  - rewrite safe_div_nonzero by exact Hnz.
    assert (Hb : 0 < b).
    { apply Qle_lt_or_eq in Ha. destruct Ha as [Ha|Ha].
      - apply Qlt_le_trans with a; assumption.
      - apply Qle_lt_or_eq in Hab. destruct Hab as [Hab|Hab].
        + rewrite <- Ha in Hab. exact Hab.
        + exfalso. apply Hnz. rewrite <- Hab, <- Ha. reflexivity. }
    split.
    + apply Qle_shift_div_l; [exact Hb|]. lra.
    + apply Qle_shift_div_r; [exact Hb|]. lra.
Qed.

Lemma f1_of_unit (pa ua : Q) : 0 <= pa <= 1 -> 0 <= ua <= 1 -> 0 <= f1_of pa ua <= 1.
Proof.
  intros [Hp0 Hp1] [Hu0 Hu1]. unfold f1_of.
  destruct (Qeq_bool (pa + ua) 0); cbn [negb]; [split; [apply Qle_refl|discriminate]|].
  apply safe_div_unit; nra.
Qed.

(** The ratios of a row are proportions. *)
Lemma compute_metrics_unit :
  forall (a : areas),
    0 <= Correct_Area a ->
    Correct_Area a <= Ref_Total_Area a ->
    Correct_Area a <= Pred_Total_Area a ->
    let m := compute_metrics a in
    0 <= Producer_Accuracy m <= 1
    /\ 0 <= User_Accuracy m <= 1
    /\ 0 <= IoU m <= 1
    /\ 0 <= F1_Score m <= 1
    /\ 0 <= FN_Prop m <= 1
    /\ 0 <= FP_Prop m <= 1.
Proof.
  intros a Hc Hr Hp m. unfold m, compute_metrics.
  cbn [Producer_Accuracy User_Accuracy IoU F1_Score FN_Prop FP_Prop].
  assert (HP : 0 <= safe_div (Correct_Area a) (Ref_Total_Area a) <= 1)
    by (apply safe_div_unit; assumption).
  assert (HU : 0 <= safe_div (Correct_Area a) (Pred_Total_Area a) <= 1)
    by (apply safe_div_unit; assumption).
  split; [exact HP|]. split; [exact HU|].
  split; [apply safe_div_unit; lra|].
  split; [apply f1_of_unit; assumption|].
  split; apply safe_div_unit; lra.
Qed.

(** X8.  For a class whose correct area is non-negative and no larger than
    its reference total and its predicted total, every ratio of the
    per-class table before rounding lies in [0, 1]: producer's and user's
    accuracy, IoU, F1 and the false-negative and false-positive
    proportions. *)
Theorem metrics_in_unit_interval :
  forall (a : areas),
    0 <= Correct_Area a ->
    Correct_Area a <= Ref_Total_Area a ->
    Correct_Area a <= Pred_Total_Area a ->
    let m := compute_metrics a in
    0 <= Producer_Accuracy m <= 1
    /\ 0 <= User_Accuracy m <= 1
    /\ 0 <= IoU m <= 1
    /\ 0 <= F1_Score m <= 1
    /\ 0 <= FN_Prop m <= 1
    /\ 0 <= FP_Prop m <= 1.
Proof. exact compute_metrics_unit. Qed.

Lemma metrics_in_unit_interval_witness :
  0 <= Correct_Area sample_area
  /\ 0 <= IoU (compute_metrics sample_area) <= 1
  /\ 0 <= F1_Score (compute_metrics sample_area) <= 1.
Proof.
  split; [discriminate|].
  destruct (metrics_in_unit_interval sample_area) as [_ [_ [HI [HF _]]]];
    try discriminate.
  split; assumption.
Defined.

Lemma sum_le (xs ys : list Q) :
  Forall2 Qle xs ys -> sum xs <= sum ys.
Proof.
  induction 1 as [|x y xs ys Hxy _ IH].
  - apply Qle_refl.
  - rewrite !sum_cons. lra.
Qed.

(** X10.  When no row has a negative correct area or a correct area above
    its reference total, the overall accuracy lies in [0, 1]. *)
Theorem overall_accuracy_unit :
  forall (df_out : list (areas * metrics)),
    (forall am, In am df_out ->
                0 <= Correct_Area (fst am) /\ Correct_Area (fst am) <= Ref_Total_Area (fst am)) ->
    0 <= overall_accuracy df_out <= 1.
Proof.
  intros df H. unfold overall_accuracy, nonzero.
  set (correct := sum (map (fun am => Correct_Area (fst am)) df)).
  set (ref := sum (map (fun am => Ref_Total_Area (fst am)) df)).
  assert (Hc : 0 <= correct).
  { apply sum_nonneg. intros w Hw. apply in_map_iff in Hw.
    destruct Hw as [am [<- Hin]]. apply H, Hin. }
  assert (Hcr : correct <= ref).
  { apply sum_le. clear -H. induction df as [|am df IH]; cbn [map]; constructor.
    - apply H. left. reflexivity.
    - apply IH. intros am' Hin. apply H. right. exact Hin. }
  destruct (Qeq_bool ref 0) eqn:E; cbn [negb]; [split; [apply Qle_refl|discriminate]|].
  assert (Hnz : ~ ref == 0).
  { intro Hz. apply Qeq_bool_iff in Hz. congruence. }
  assert (Hpos : 0 < ref).
  { apply Qle_lt_or_eq in Hc. destruct Hc as [Hc|Hc]; [lra|].
    assert (Hr : 0 <= ref) by lra. apply Qle_lt_or_eq in Hr.
    destruct Hr as [Hr|Hr]; [exact Hr|]. exfalso. apply Hnz. rewrite <- Hr. reflexivity. }
  split.
  - apply Qle_shift_div_l; [exact Hpos|]. lra.
  - apply Qle_shift_div_r; [exact Hpos|]. lra.
Qed.

Lemma overall_accuracy_unit_witness :
  0 <= overall_accuracy (add_metrics [sample_unseen; sample_area]) <= 1.
Proof.
  apply (overall_accuracy_unit (add_metrics [sample_unseen; sample_area])).
  intros am Hin. simpl in Hin. destruct Hin as [<-|[<-|[]]]; split; discriminate.
Defined.

(** * Further properties of the correlation pairs *)

Lemma cell_at_in_range (m : frame) (i j : nat) (r : Q) :
  square m = true -> cell_at m i j = Some r ->
  (i < List.length (labels m))%nat /\ (j < List.length (labels m))%nat.
Proof.
  unfold square, cell_at. intros Hsq H. apply andb_true_iff in Hsq.
  destruct Hsq as [Hrows Hcols]. apply Nat.eqb_eq in Hrows.
  destruct (nth_error (rows m) i) as [row|] eqn:Hrow; [|discriminate].
  destruct (nth_error row j) as [x|] eqn:Hx; [|discriminate].
  split.
  - rewrite <- Hrows. apply nth_error_Some. congruence.
  - rewrite forallb_forall in Hcols. apply nth_error_In in Hrow.
    specialize (Hcols row Hrow). apply Nat.eqb_eq in Hcols. rewrite <- Hcols.
    apply nth_error_Some. congruence.
Qed.

Lemma in_high_corr_filtered (m : frame) (a b : string) (r : Q) :
  In (a, b, r) (high_corr_filtered m) <->
  exists i j, (i < j)%nat /\ cell_at m i j = Some r /\ threshold < Qabs r
              /\ a = label_at m i /\ b = label_at m j.
Proof.
  rewrite high_corr_filtered_cells, in_map_iff. split.
  - intros [[[i j] r'] [Heq Hin]]. unfold labelled in Heq. cbn [fst snd] in Heq.
    injection Heq as <- <- <-. apply filter_In in Hin. destruct Hin as [Hin Hthr].
    cbn [snd] in Hthr. apply Qltb_lt in Hthr. apply in_cells_upper_tri in Hin.
    exists i, j. tauto.
  - intros [i [j [Hlt [Hcell [Hthr [-> ->]]]]]]. exists (i, j, r). split; [reflexivity|].
    apply filter_In. split; [apply in_cells_upper_tri; tauto|].
    cbn [snd]. apply Qltb_lt, Hthr.
Qed.

(** X13.  For a correlation matrix with distinct labels, one row and one
    column per label: no raster is reported as correlated with itself, a pair
    reported as (a, b) is never also reported as (b, a), and it is reported
    with one coefficient only. *)
Theorem high_corr_pairs_no_repeats :
  forall (m : frame) (a b : string) (r : Q),
    distinct (labels m) = true ->
    square m = true ->
    In (a, b, r) (high_corr_filtered m) ->
    a <> b
    /\ (forall r', ~ In (b, a, r') (high_corr_filtered m))
    /\ (forall r', In (a, b, r') (high_corr_filtered m) -> r' = r).
Proof.
  intros m a b r Hd Hsq Hin. apply distinct_NoDup in Hd.
  assert (Hinj : forall i j, (i < List.length (labels m))%nat ->
                             (j < List.length (labels m))%nat ->
                             label_at m i = label_at m j -> i = j).
  { intros i j Hi Hj. unfold label_at. apply (proj1 (NoDup_nth (labels m) EmptyString) Hd);
      assumption. }
  apply in_high_corr_filtered in Hin.
  destruct Hin as [i [j [Hlt [Hcell [_ [-> ->]]]]]].
  destruct (cell_at_in_range m i j r Hsq Hcell) as [Hi Hj].
  split; [|split].
  - intro Heq. apply Hinj in Heq; [lia|assumption|assumption].
  - intros r' Hin'. apply in_high_corr_filtered in Hin'.
    destruct Hin' as [i' [j' [Hlt' [Hcell' [_ [Ha Hb]]]]]].
    destruct (cell_at_in_range m i' j' r' Hsq Hcell') as [Hi' Hj'].
    apply Hinj in Ha; [|assumption|assumption].
    apply Hinj in Hb; [|assumption|assumption]. lia.
  - intros r' Hin'. apply in_high_corr_filtered in Hin'.
    destruct Hin' as [i' [j' [_ [Hcell' [_ [Ha Hb]]]]]].
    destruct (cell_at_in_range m i' j' r' Hsq Hcell') as [Hi' Hj'].
    apply Hinj in Ha; [|assumption|assumption].
    apply Hinj in Hb; [|assumption|assumption]. subst i' j'. congruence.
Qed.

Lemma high_corr_pairs_no_repeats_witness :
  distinct (labels sample_corr) = true
  /\ square sample_corr = true
  /\ high_corr_filtered sample_corr
     = [ ("Elevation", "Slope", 9 # 10); ("Elevation", "TPI1_50m", -(88) # 100) ]%string
  /\ forall r', ~ In ("Slope"%string, "Elevation"%string, r') (high_corr_filtered sample_corr).
Proof.
  split; [reflexivity|]. split; [reflexivity|]. split; [reflexivity|].
  apply (high_corr_pairs_no_repeats sample_corr "Elevation"%string "Slope"%string (9 # 10)
           eq_refl eq_refl).
  left. reflexivity.
Defined.

(** * Further properties of the written values *)





(** X15.  The water-body rule is one-directional: on any row, the label
    written with the rule enabled is the label written with the rule disabled
    or it is 'WATER BODY'; a row labelled 'WATER BODY' without the rule keeps
    that label with it. *)
Theorem wb_rule_one_directional :
  forall (use_lowconf : bool) (tau : Q) (W : weights) (elev_by_oid : list (Z * option Q))
         (oid : Z) (preds_vals : list (option string))
         (l0 src0 : option string) (sc0 : option Q),
    process_row false use_lowconf tau W elev_by_oid oid preds_vals = Ret (l0, src0, sc0) ->
    exists l1 src1 sc1,
      process_row true use_lowconf tau W elev_by_oid oid preds_vals = Ret (l1, src1, sc1)
      /\ (l1 = l0 \/ l1 = Some CLS_WATER)
      /\ (l0 = Some CLS_WATER -> l1 = Some CLS_WATER).
Proof.
  intros use_lowconf tau W elev oid vals l0 src0 sc0. unfold process_row.
  destruct (pick_ensemble_label (row_preds vals) W CLF_PRIORITY use_lowconf tau)
    as [[[label src] sc]|]; [|discriminate].
  cbn [bind]. intro H.
  assert (Hw : write_row (label, src, sc) = (l0, src0, sc0)) by congruence. clear H.
  unfold wb_override.
  destruct (elev_get elev oid) as [z|];
    [|rewrite Hw; eexists _, _, _; split; [reflexivity|split; [left; reflexivity|auto]]].
  destruct (Qleb z ELEV_THRESH);
    [|rewrite Hw; eexists _, _, _; split; [reflexivity|split; [left; reflexivity|auto]]].
  destruct (match dget (row_preds vals) SVM_RIVER_CLF with
            | Some p => pred_eqb p (Some CLS_WATER)
            | None => false
            end);
    [|rewrite Hw; eexists _, _, _; split; [reflexivity|split; [left; reflexivity|auto]]].
  unfold write_row. cbn [truthy CLS_WATER String.eqb Ascii.eqb Bool.eqb negb].
  eexists _, _, _. split; [reflexivity|]. split; [right; reflexivity|auto].
Qed.

Lemma wb_rule_one_directional_witness :
  process_row false true TAU sample_W [(7%Z, Some (150 # 1))] 7%Z
    [Some "RIDGE"; Some "RIDGE"; None; Some "WATER BODY"]%string
  = Ret (Some "RIDGE"%string, Some "RTv11A2D60+RTv11A2D50"%string, Some (8 # 16))
  /\ exists l1 src1 sc1,
       process_row true true TAU sample_W [(7%Z, Some (150 # 1))] 7%Z
         [Some "RIDGE"; Some "RIDGE"; None; Some "WATER BODY"]%string
       = Ret (l1, src1, sc1)
       /\ (l1 = Some "RIDGE"%string \/ l1 = Some CLS_WATER).
Proof.
  split; [reflexivity|].
  destruct (wb_rule_one_directional true TAU sample_W [(7%Z, Some (150 # 1))] 7%Z
              [Some "RIDGE"; Some "RIDGE"; None; Some "WATER BODY"]%string
              (Some "RIDGE"%string) (Some "RTv11A2D60+RTv11A2D50"%string) (Some (8 # 16))
              eq_refl) as [l1 [src1 [sc1 [H1 [H2 _]]]]].
  exists l1, src1, sc1. split; assumption.
Defined.

(** * Double arithmetic: the order of floats *)

Import B64.

Lemma SFcompare_finite_pos (m1 m2 : positive) (e1 e2 : Z) :
  match Z.compare e1 e2 with
  | Lt => Lt
  | Gt => Gt
  | Eq => Pos.compare_cont Eq m1 m2
  end = Lt
  <-> (e1 < e2 \/ (e1 = e2 /\ Zpos m1 < Zpos m2))%Z.
Proof.
  change (Pos.compare_cont Eq m1 m2) with (Pos.compare m1 m2).
  destruct (Z.compare_spec e1 e2) as [He|He|He].
  - rewrite Pos.compare_lt_iff. split; [intro H; right; split; [exact He|exact H]|].
    intros [H|[_ H]]; [lia|exact H].
  - split; [intros _; left; exact He|reflexivity].
  - split; [discriminate|intros [H|[H _]]; lia].
Qed.

Lemma SFcompare_finite_neg (m1 m2 : positive) (e1 e2 : Z) :
  match Z.compare e1 e2 with
  | Lt => Gt
  | Gt => Lt
  | Eq => CompOpp (Pos.compare_cont Eq m1 m2)
  end = Lt
  <-> (e2 < e1 \/ (e1 = e2 /\ Zpos m2 < Zpos m1))%Z.
Proof.
  change (Pos.compare_cont Eq m1 m2) with (Pos.compare m1 m2).
  destruct (Z.compare_spec e1 e2) as [He|He|He].
  - destruct (Pos.compare_spec m1 m2) as [Hm|Hm|Hm]; cbn [CompOpp].
    + split; [discriminate|intros [H|[_ H]]; lia].
    + split; [discriminate|intros [H|[_ H]]; lia].
    + split; [intros _; right; split; [exact He|lia]|reflexivity].
  - split; [discriminate|intros [H|[H _]]; lia].
  - split; [intros _; left; exact He|reflexivity].
Qed.

(** [x < y] holds exactly when neither is NaN and [x] comes first. *)
Lemma flt_spec (x y : float) :
  flt x y = true <-> is_nan x = false /\ is_nan y = false /\ lexlt (fkey x) (fkey y).
Proof.
  unfold flt, SFltb.
  destruct x as [sx|sx| |sx mx ex], y as [sy|sy| |sy my ey];
    try (destruct sx); try (destruct sy); cbn [SFcompare is_nan fkey lexlt];
    try (split; [discriminate|intros [H1 [H2 H3]]; try discriminate; lia]);
    try (split; [intros _; split; [reflexivity|split; [reflexivity|lia]]|reflexivity]).
  - (* negative, negative *)
    destruct (match Z.compare ex ey with
              | Lt => Gt | Gt => Lt | Eq => CompOpp (Pos.compare_cont Eq mx my) end) eqn:E.
    + split; [discriminate|]. intros [_ [_ H]]. exfalso.
      assert (HL : (ey < ex \/ (ex = ey /\ Zpos my < Zpos mx))%Z) by lia.
      apply SFcompare_finite_neg in HL. congruence.
    + apply SFcompare_finite_neg in E. split; [|reflexivity].
      intros _. split; [reflexivity|]. split; [reflexivity|lia].
    + split; [discriminate|]. intros [_ [_ H]]. exfalso.
      assert (HL : (ey < ex \/ (ex = ey /\ Zpos my < Zpos mx))%Z) by lia.
      apply SFcompare_finite_neg in HL. congruence.
  - (* positive, positive *)
    destruct (match Z.compare ex ey with
              | Lt => Lt | Gt => Gt | Eq => Pos.compare_cont Eq mx my end) eqn:E.
    + split; [discriminate|]. intros [_ [_ H]]. exfalso.
      assert (HL : (ex < ey \/ (ex = ey /\ Zpos mx < Zpos my))%Z) by lia.
      apply SFcompare_finite_pos in HL. congruence.
    + apply SFcompare_finite_pos in E. split; [|reflexivity].
      intros _. split; [reflexivity|]. split; [reflexivity|lia].
    + split; [discriminate|]. intros [_ [_ H]]. exfalso.
      assert (HL : (ex < ey \/ (ex = ey /\ Zpos mx < Zpos my))%Z) by lia.
      apply SFcompare_finite_pos in HL. congruence.
Qed.

Lemma flt_trans (x y z : float) : flt x y = true -> flt y z = true -> flt x z = true.
Proof.
  rewrite !flt_spec. intros [Hx [_ Hxy]] [_ [Hz Hyz]].
  split; [exact Hx|]. split; [exact Hz|].
  destruct (fkey x) as [[x1 x2] x3], (fkey y) as [[y1 y2] y3], (fkey z) as [[z1 z2] z3].
  cbn [lexlt] in *. lia.
Qed.

Lemma flt_irrefl (x : float) : flt x x = false.
Proof.
  destruct (flt x x) eqn:E; [|reflexivity].
  apply flt_spec in E. destruct E as [_ [_ H]].
  destruct (fkey x) as [[x1 x2] x3]. cbn [lexlt] in H. lia.
Qed.

(** An item that does not exceed the current best does not exceed a better
    one. *)
Lemma flt_false_mono (m z y : float) :
  flt m z = true -> flt m y = false -> flt z y = false.
Proof.
  intros Hmz Hmy. destruct (flt z y) eqn:E; [|reflexivity].
  rewrite (flt_trans m z y Hmz E) in Hmy. discriminate.
Qed.

(** The difference of a finite float with itself is [0.0]. *)
Lemma fsub_diag (x : float) : is_finite x = true -> fsub x x = zero.
Proof.
  destruct x as [s|s| |s m e]; try discriminate; intros _.
  - destruct s; reflexivity.
  - unfold fsub, SFsub. rewrite Z.sub_diag. reflexivity.
Qed.

Lemma near_self (x : float) :
  is_finite x = true -> flt (fabs (fsub x x)) Ensemble64.score_tol = true.
Proof. intro H. rewrite fsub_diag by exact H. reflexivity. Qed.

(** *** Python's max on floats *)

Lemma fmax_from_in (x : float) (xs : list float) : In (fmax_from x xs) (x :: xs).
Proof.
  unfold fmax_from. revert x. induction xs as [|y ys IH]; intro x; cbn [fold_left].
  - left. reflexivity.
  - destruct (flt x y).
    + destruct (IH y) as [H|H]; [right; left; exact H|right; right; exact H].
    + destruct (IH x) as [H|H]; [left; exact H|right; right; exact H].
Qed.

(** No item compares greater than the result. *)
Lemma fmax_from_ub (x : float) (xs : list float) (t : float) :
  In t (x :: xs) -> flt (fmax_from x xs) t = false.
Proof.
  assert (Hgen : forall l m, (forall y, In y l -> flt (fold_left
                    (fun m y => if flt m y then y else m) l m) y = false)
                 /\ (forall y, flt m y = false ->
                       flt (fold_left (fun m y => if flt m y then y else m) l m) y = false)).
  { induction l as [|z l IH]; intro m; cbn [fold_left].
    - split; [intros y []|auto].
    - destruct (flt m z) eqn:E.
      + split.
        * intros y [<-|Hy];
            [apply (proj2 (IH z)), flt_irrefl|apply (proj1 (IH z)), Hy].
        * intros y Hy. apply (proj2 (IH z)). apply (flt_false_mono m z y E Hy).
      + split.
        * intros y [<-|Hy]; [apply (proj2 (IH m)), E|apply (proj1 (IH m)), Hy].
        * intros y Hy. apply (proj2 (IH m)), Hy. }
  unfold fmax_from. intros [<-|Hy].
  - apply (proj2 (Hgen xs x)), flt_irrefl.
  - apply (proj1 (Hgen xs x)), Hy.
Qed.

Lemma fmax_by_in {A} (key : A -> float) (x : A) (xs : list A) :
  In (fmax_by key x xs) (x :: xs).
Proof.
  unfold fmax_by. revert x. induction xs as [|y ys IH]; intro x; cbn [fold_left].
  - left. reflexivity.
  - destruct (flt (key x) (key y)).
    + destruct (IH y) as [H|H]; [right; left; exact H|right; right; exact H].
    + destruct (IH x) as [H|H]; [left; exact H|right; right; exact H].
Qed.

Lemma fmax_by_ub {A} (key : A -> float) (x : A) (xs : list A) (t : A) :
  In t (x :: xs) -> flt (key (fmax_by key x xs)) (key t) = false.
Proof.
  assert (Hgen : forall l m,
             (forall y, In y l -> flt (key (fold_left
                    (fun m y => if flt (key m) (key y) then y else m) l m)) (key y) = false)
             /\ (forall y, flt (key m) (key y) = false ->
                   flt (key (fold_left (fun m y => if flt (key m) (key y) then y else m) l m))
                       (key y) = false)).
  { induction l as [|z l IH]; intro m; cbn [fold_left].
    - split; [intros y []|auto].
    - destruct (flt (key m) (key z)) eqn:E.
      + split.
        * intros y [<-|Hy];
            [apply (proj2 (IH z)), flt_irrefl|apply (proj1 (IH z)), Hy].
        * intros y Hy. apply (proj2 (IH z)).
          apply (flt_false_mono (key m) (key z) (key y) E Hy).
      + split.
        * intros y [<-|Hy]; [apply (proj2 (IH m)), E|apply (proj1 (IH m)), Hy].
        * intros y Hy. apply (proj2 (IH m)), Hy. }
  unfold fmax_by. intros [<-|Hy].
  - apply (proj2 (Hgen xs x)), flt_irrefl.
  - apply (proj1 (Hgen xs x)), Hy.
Qed.

(** * Double arithmetic: the vote count *)

Import Ensemble64.

Lemma predictors_predicting (preds : dict pred) (c : string) :
  predictors preds c = predicting preds (Some c).
Proof.
  unfold predicting. induction preds as [|[clf p] l IH]; [reflexivity|].
  cbn [predictors filter snd pred_eqb]. destruct p as [c'|]; [|exact IH].
  cbn [pred_eqb]. destruct (String.eqb c' c); cbn [map fst]; rewrite IH; reflexivity.
Qed.

Lemma in_predictors (preds : dict pred) (c clf : string) :
  In clf (predictors preds c) <-> In (clf, Some c) preds.
Proof. rewrite predictors_predicting. apply in_predicting. Qed.

Lemma predictors_app (l1 l2 : dict pred) (c : string) :
  predictors (l1 ++ l2) c = predictors l1 c ++ predictors l2 c.
Proof. rewrite !predictors_predicting. apply predicting_app. Qed.

(** The lookup of the code finds the weight the table holds. *)
Lemma wget_has_weight (W : weights) (c clf : string) :
  well_keyed W = true -> has_weight W c clf (wget W (Some c) clf).
Proof.
  intro HW. unfold well_keyed in HW. apply andb_true_iff in HW. destruct HW as [HW Hin].
  apply distinct_NoDup in HW. rewrite forallb_forall in Hin.
  unfold wget. destruct (dget W c) as [d|] eqn:Ed.
  - pose proof (dget_Some_in _ _ _ Ed) as HWd.
    pose proof (distinct_NoDup _ (Hin _ HWd)) as Hd. cbn [snd] in Hd.
    destruct (dget d clf) as [w|] eqn:Ew.
    + left. exists d. split; [exact HWd|apply dget_Some_in, Ew].
    + right. split; [reflexivity|]. intros d' w' Hd' Hw'.
      assert (d' = d).
      { apply (in_NoDup_dget W c d' HW) in Hd'. congruence. }
      subst d'. apply (in_NoDup_dget d clf w' Hd) in Hw'. congruence.
  - right. split; [reflexivity|]. intros d' w' Hd' _.
    apply (in_NoDup_dget W c d' HW) in Hd'. congruence.
Qed.

Lemma has_weight_wget (W : weights) (c clf : string) (w : float) :
  well_keyed W = true -> has_weight W c clf w -> w = wget W (Some c) clf.
Proof.
  intros HW H. pose proof HW as HW'.
  unfold well_keyed in HW. apply andb_true_iff in HW. destruct HW as [HW Hin].
  apply distinct_NoDup in HW. rewrite forallb_forall in Hin.
  destruct H as [[d [Hd Hw]]|[-> Hno]].
  - pose proof (distinct_NoDup _ (Hin _ Hd)) as Hnd. cbn [snd] in Hnd.
    unfold wget. rewrite (in_NoDup_dget W c d HW Hd), (in_NoDup_dget d clf w Hnd Hw).
    reflexivity.
  - unfold wget. destruct (dget W c) as [d|] eqn:Ed; [|reflexivity].
    destruct (dget d clf) as [w|] eqn:Ew; [|reflexivity].
    exfalso. apply (Hno d w); [apply dget_Some_in, Ed|apply dget_Some_in, Ew].
Qed.

(** The weights of a list of classifiers, as the table holds them. *)
Lemma Forall2_has_weight (W : weights) (c : string) (clfs : list string) (ws : list float) :
  well_keyed W = true ->
  (Forall2 (has_weight W c) clfs ws <-> ws = map (wget W (Some c)) clfs).
Proof.
  intro HW. split.
  - induction 1 as [|clf w clfs ws Hw _ IH]; [reflexivity|].
    cbn [map]. rewrite <- IH, <- (has_weight_wget W c clf w HW Hw). reflexivity.
  - intros ->. induction clfs as [|clf clfs IH]; cbn [map]; constructor.
    + apply wget_has_weight, HW.
    + exact IH.
Qed.

Lemma fsum_app (xs : list float) (x : float) : fsum (xs ++ [x]) = fadd (fsum xs) x.
Proof. unfold fsum. rewrite fold_left_app. reflexivity. Qed.

Lemma count_votes64_snoc (W : weights) (l : dict pred) (x : string * pred) :
  count_votes W (l ++ [x]) = vote W (count_votes W l) x.
Proof. unfold count_votes. rewrite fold_left_app. reflexivity. Qed.

Lemma vote64_score (W : weights) (t : tally) (clf : string) (p : pred) (c : string) :
  dget (score (vote W t (clf, p))) c =
  if truthy p && pred_eqb p (Some c)
  then Some (match dget (score t) c with
             | Some s => fadd s (wget W (Some c) clf)
             | None => fadd zero (wget W (Some c) clf)
             end)
  else dget (score t) c.
Proof.
  unfold vote. cbn [fst snd]. destruct p as [c0|]; [|reflexivity].
  cbn [truthy pred_eqb]. destruct (String.eqb c0 ""); [reflexivity|].
  cbn [score negb andb]. rewrite dget_dupd.
  destruct (String.eqb c0 c) eqn:E; [|reflexivity].
  apply String.eqb_eq in E. subst c0. reflexivity.
Qed.

Lemma vote64_voters (W : weights) (t : tally) (clf : string) (p : pred) (c : string) :
  dget (voters_by_class (vote W t (clf, p))) c =
  if truthy p && pred_eqb p (Some c)
  then Some (match dget (voters_by_class t) c with
             | Some l => l ++ [(clf, wget W (Some c) clf)]
             | None => [(clf, wget W (Some c) clf)]
             end)
  else dget (voters_by_class t) c.
Proof.
  unfold vote. cbn [fst snd]. destruct p as [c0|]; [|reflexivity].
  cbn [truthy pred_eqb]. destruct (String.eqb c0 ""); [reflexivity|].
  cbn [voters_by_class negb andb]. rewrite dget_dupd.
  destruct (String.eqb c0 c) eqn:E; [|reflexivity].
  apply String.eqb_eq in E. subst c0. reflexivity.
Qed.

Lemma fsum_votes64 (W : weights) (preds : dict pred) (c : string) :
  fsum (map snd (votes_for W preds c)) = class_score W preds c.
Proof. unfold votes_for, class_score. rewrite map_map. reflexivity. Qed.

(** What the two dicts hold after the loop. *)
Lemma count_votes64_spec (W : weights) (preds : dict pred) (c : string) :
  dget (voters_by_class (count_votes W preds)) c =
    (if String.eqb c "" then None
     else match votes_for W preds c with
          | [] => None
          | vs => Some vs
          end)
  /\ dget (score (count_votes W preds)) c =
    (if String.eqb c "" then None
     else match votes_for W preds c with
          | [] => None
          | vs => Some (fsum (map snd vs))
          end).
Proof.
  induction preds as [|[clf p] l IH] using rev_ind.
  - destruct (String.eqb c ""); split; reflexivity.
  - rewrite count_votes64_snoc, vote64_score, vote64_voters.
    destruct IH as [IHv IHs]. rewrite IHv, IHs. clear IHv IHs.
    assert (Hone : votes_for W (l ++ [(clf, p)]) c
                   = votes_for W l c
                     ++ (if pred_eqb p (Some c) then [(clf, wget W (Some c) clf)] else [])).
    { unfold votes_for. rewrite predictors_app, map_app. f_equal.
      rewrite predictors_predicting. unfold predicting. cbn [filter snd].
      destruct (pred_eqb p (Some c)); reflexivity. }
    rewrite Hone. clear Hone.
    destruct (pred_eqb p (Some c)) eqn:Ep.
    + apply pred_eqb_eq in Ep. subst p. cbn [truthy].
      destruct (String.eqb c ""); cbn [negb andb]; [split; reflexivity|].
      destruct (votes_for W l c) as [|v vs]; cbn [app].
      * split; reflexivity.
      * split; [reflexivity|]. f_equal.
        change (v :: vs ++ [(clf, wget W (Some c) clf)])
          with ((v :: vs) ++ [(clf, wget W (Some c) clf)]).
        rewrite map_app. cbn [map snd]. rewrite fsum_app. reflexivity.
    + rewrite andb_false_r, app_nil_r. split; reflexivity.
Qed.

Lemma count_votes64_NoDup (W : weights) (preds : dict pred) :
  NoDup (keys (score (count_votes W preds))).
Proof.
  induction preds as [|[clf p] l IH] using rev_ind.
  - constructor.
  - rewrite count_votes64_snoc. unfold vote. cbn [fst snd].
    destruct p as [c0|]; [|exact IH].
    destruct (String.eqb c0 ""); [exact IH|]. cbn [score].
    apply NoDup_keys_dupd, IH.
Qed.

Lemma predicted_votes64 (W : weights) (preds : dict pred) (c : string) :
  predicted preds c <-> c <> EmptyString /\ votes_for W preds c <> [].
Proof.
  unfold predicted, votes_for. split; intros [Hc H]; (split; [exact Hc|]).
  - destruct H as [clf Hin]. apply in_predictors in Hin.
    destruct (predictors preds c); [destruct Hin|discriminate].
  - destruct (predictors preds c) as [|clf l] eqn:E;
      [exfalso; apply H; reflexivity|].
    exists clf. apply in_predictors. rewrite E. left. reflexivity.
Qed.

Lemma count_votes64_score (W : weights) (preds : dict pred) (c : string) (s : float) :
  dget (score (count_votes W preds)) c = Some s ->
  predicted preds c /\ s = class_score W preds c.
Proof.
  rewrite (proj2 (count_votes64_spec W preds c)).
  destruct (String.eqb c "") eqn:Ec; [discriminate|]. apply String.eqb_neq in Ec.
  destruct (votes_for W preds c) as [|vt vs] eqn:Ev; [discriminate|].
  intro H. injection H as <-. split.
  - apply (predicted_votes64 W). split; [exact Ec|]. rewrite Ev. discriminate.
  - rewrite <- fsum_votes64, Ev. reflexivity.
Qed.

Lemma count_votes64_predicted (W : weights) (preds : dict pred) (c : string) :
  predicted preds c ->
  dget (score (count_votes W preds)) c = Some (class_score W preds c).
Proof.
  intro Hp. apply (predicted_votes64 W) in Hp. destruct Hp as [Hc Hv].
  rewrite (proj2 (count_votes64_spec W preds c)).
  apply String.eqb_neq in Hc. rewrite Hc.
  rewrite <- fsum_votes64.
  destruct (votes_for W preds c) as [|vt vs] eqn:Ev; [congruence|].
  reflexivity.
Qed.

Lemma count_votes64_vget (W : weights) (preds : dict pred) (c : string) :
  c <> EmptyString ->
  vget (voters_by_class (count_votes W preds)) c = votes_for W preds c.
Proof.
  intro Hc. unfold vget.
  rewrite (proj1 (count_votes64_spec W preds c)).
  apply String.eqb_neq in Hc. rewrite Hc.
  destruct (votes_for W preds c); reflexivity.
Qed.

Lemma no_score64_no_prediction (preds : dict pred) (W : weights) :
  values (score (count_votes W preds)) = [] ->
  forall clf p, In (clf, p) preds -> truthy p = false.
Proof.
  intros Hv clf p Hin. destruct (truthy p) eqn:Ep; [|reflexivity].
  destruct p as [c|]; [|discriminate]. cbn [truthy] in Ep.
  apply negb_true_iff, String.eqb_neq in Ep.
  assert (Hp : predicted preds c) by (split; [exact Ep|exists clf; exact Hin]).
  apply (count_votes64_predicted W) in Hp.
  destruct (score (count_votes W preds)); [discriminate|discriminate].
Qed.

Lemma is_score_class_score (W : weights) (preds : dict pred) (c : string) (s : float) :
  well_keyed W = true ->
  (is_score W preds c s <-> s = class_score W preds c).
Proof.
  intro HW. unfold is_score, class_score. split.
  - intros [ws [Hws ->]]. apply (Forall2_has_weight W c _ ws HW) in Hws. rewrite Hws. reflexivity.
  - intros ->. exists (map (wget W (Some c)) (predictors preds c)).
    split; [apply Forall2_has_weight; [exact HW|reflexivity]|reflexivity].
Qed.

Lemma wget_nonneg (W : weights) (cls : pred) (clf : string) :
  weights_nonneg W = true -> fle zero (wget W cls clf) = true.
Proof.
  intro HW. unfold weights_nonneg in HW. rewrite forallb_forall in HW.
  unfold wget. destruct cls as [c|]; [|reflexivity].
  destruct (dget W c) as [d|] eqn:Ed; [|reflexivity].
  destruct (dget d clf) as [w|] eqn:Ew; [|reflexivity].
  apply dget_Some_in in Ed. apply dget_Some_in in Ew.
  specialize (HW _ Ed). cbn [snd] in HW. rewrite forallb_forall in HW.
  apply (HW _ Ew).
Qed.

(** * Double arithmetic: winners and tie-break *)

Lemma in_winners_of64 (sc : dict float) (m : float) (c : string) :
  NoDup (keys sc) ->
  (In c (winners_of sc m)
   <-> exists s, dget sc c = Some s /\ flt (fabs (fsub s m)) score_tol = true).
Proof.
  intro Hnd. unfold winners_of. rewrite in_map_iff. split.
  - intros [[c' s] [Hc Hin]]. cbn [fst] in Hc. subst c'.
    apply filter_In in Hin. destruct Hin as [Hin Hs]. cbn [snd] in Hs.
    exists s. split; [apply in_NoDup_dget; assumption|exact Hs].
  - intros [s [Hget Hs]]. exists (c, s). split; [reflexivity|].
    apply filter_In. split; [apply dget_Some_in, Hget|exact Hs].
Qed.

(** The class holding a finite best score is among the winners; an infinite
    or NaN best score leaves no winner at all. *)
Lemma winners_of64_max (sc : dict float) (s : float) (ss : list float) :
  values sc = s :: ss ->
  is_finite (fmax_from s ss) = true ->
  exists c, In (c, fmax_from s ss) sc /\ In c (winners_of sc (fmax_from s ss)).
Proof.
  intros Hv Hfin. pose proof (fmax_from_in s ss) as Hin. rewrite <- Hv in Hin.
  unfold values in Hin. apply in_map_iff in Hin.
  destruct Hin as [[c m] [Hm Hin]]. cbn [snd] in Hm. subst m.
  exists c. split; [exact Hin|].
  unfold winners_of. apply in_map_iff. exists (c, fmax_from s ss).
  split; [reflexivity|]. apply filter_In. split; [exact Hin|].
  cbn [snd]. apply near_self, Hfin.
Qed.

Lemma tb1_step_in (v : dict (list (string * float))) (st : float * list string)
    (c c' : string) :
  In c' (snd (tb1_step v st c)) -> In c' (snd st) \/ c' = c.
Proof.
  unfold tb1_step.
  destruct (flt (fadd (fst st) single_tol) (top_single v c)); cbn [snd].
  - intros [<-|[]]. right. reflexivity.
  - destruct (fle (fabs (fsub (top_single v c) (fst st))) single_tol); cbn [snd].
    + intro H. apply in_app_or in H. destruct H as [H|[<-|[]]]; [left; exact H|right; reflexivity].
    + intro H. left. exact H.
Qed.

Lemma tb1_fold_in (v : dict (list (string * float))) (l : list string)
    (st : float * list string) (c : string) :
  In c (snd (fold_left (tb1_step v) l st)) -> In c (snd st) \/ In c l.
Proof.
  revert st. induction l as [|x l IH]; intros st H; cbn [fold_left] in H.
  - left. exact H.
  - apply IH in H. destruct H as [H|H]; [|right; right; exact H].
    apply tb1_step_in in H. destruct H as [H|H]; [left; exact H|right; left; symmetry; exact H].
Qed.

Lemma tb1_candidates64_in (v : dict (list (string * float))) (l : list string) (c : string) :
  In c (tb1_candidates v l) -> In c l.
Proof.
  unfold tb1_candidates, tb1_scan. intro H. apply tb1_fold_in in H.
  destruct H as [[]|H]. exact H.
Qed.

Lemma tb1_step_nonempty (v : dict (list (string * float))) (st : float * list string)
    (c : string) :
  snd st <> [] -> snd (tb1_step v st c) <> [].
Proof.
  intro H. unfold tb1_step.
  destruct (flt (fadd (fst st) single_tol) (top_single v c)); cbn [snd]; [discriminate|].
  destruct (fle (fabs (fsub (top_single v c) (fst st))) single_tol); cbn [snd]; [|exact H].
  destruct (snd st); [congruence|discriminate].
Qed.

Lemma tb1_fold_nonempty (v : dict (list (string * float))) (l : list string)
    (st : float * list string) :
  snd st <> [] -> snd (fold_left (tb1_step v) l st) <> [].
Proof.
  revert st. induction l as [|x l IH]; intros st H; cbn [fold_left]; [exact H|].
  apply IH, tb1_step_nonempty, H.
Qed.

(** A weight that is not negative is above the start value [-1.0] by more
    than the tolerance. *)
Lemma above_start (t : float) :
  fle zero t = true -> flt (fadd minus_one single_tol) t = true.
Proof.
  destruct t as [s|s| |s m e]; try destruct s; try discriminate; intros _; reflexivity.
Qed.

Lemma tb1_candidates64_nonempty (v : dict (list (string * float))) (l : list string) :
  (forall c, In c l -> fle zero (top_single v c) = true) ->
  l <> [] -> tb1_candidates v l <> [].
Proof.
  intros Hpos Hne. destruct l as [|c l]; [congruence|].
  unfold tb1_candidates, tb1_scan. cbn [fold_left].
  apply tb1_fold_nonempty. unfold tb1_step. cbn [fst snd].
  rewrite above_start by (apply Hpos; left; reflexivity). discriminate.
Qed.

Lemma tie_break64_in (v : dict (list (string * float))) (prio winners : list string)
    (c : string) :
  tie_break v prio winners = Ret c -> In c winners.
Proof.
  unfold tie_break. intro H.
  assert (Hgen : match tb1_candidates v winners with
                 | [c'] => Ret c'
                 | tb1 => item0 (sorted_by (best_priority_rank_for_class v prio) tb1)
                 end = Ret c -> In c winners).
  { clear H. intro H. apply tb1_candidates64_in with (v := v).
    destruct (tb1_candidates v winners) as [|c1 [|c2 cs]] eqn:E.
    - discriminate.
    - inversion H. left. reflexivity.
    - apply item0_sorted_by_min in H. apply H. }
  destruct winners as [|w [|w' ws]]; auto.
  inversion H. left. reflexivity.
Qed.

Lemma tie_break64_ret (v : dict (list (string * float))) (prio winners : list string) :
  winners <> [] ->
  (forall c, In c winners -> fle zero (top_single v c) = true) ->
  exists c, tie_break v prio winners = Ret c.
Proof.
  intros Hne Hpos. unfold tie_break.
  pose proof (tb1_candidates64_nonempty v winners Hpos Hne) as Hs.
  destruct winners as [|w [|w' ws]]; [congruence|eexists; reflexivity|].
  destruct (tb1_candidates v (w :: w' :: ws)) as [|c0 [|c1 cs]];
    [congruence|eexists; reflexivity|].
  apply item0_sorted_by_ret. discriminate.
Qed.

Lemma top_single64_nonneg (W : weights) (preds : dict pred) (c : string) :
  weights_nonneg W = true ->
  fle zero (top_single (voters_by_class (count_votes W preds)) c) = true.
Proof.
  intro HW. unfold top_single, vget.
  rewrite (proj1 (count_votes64_spec W preds c)).
  assert (Hall : forall l, (forall x, In x l -> exists clf, x = wget W (Some c) clf) ->
                           fle zero (fmax_default l zero) = true).
  { intros l Hl. destruct l as [|x xs]; [reflexivity|]. cbn [fmax_default].
    destruct (Hl _ (fmax_from_in x xs)) as [clf ->]. apply wget_nonneg, HW. }
  apply Hall. intros x Hx.
  destruct (String.eqb c ""); [destruct Hx|].
  assert (Hx' : In x (map snd (votes_for W preds c))).
  { destruct (votes_for W preds c); [destruct Hx|exact Hx]. }
  unfold votes_for in Hx'. rewrite map_map in Hx'. cbn [snd] in Hx'.
  apply in_map_iff in Hx'. destruct Hx' as [clf [<- _]]. exists clf. reflexivity.
Qed.

Lemma tie_break64_winner (W : weights) (preds : dict pred) (prio : list string)
    (m : float) (w : string) :
  let t := count_votes W preds in
  tie_break (voters_by_class t) prio (winners_of (score t) m) = Ret w ->
  predicted preds w
  /\ flt (fabs (fsub (class_score W preds w) m)) score_tol = true
  /\ vget (voters_by_class t) w = votes_for W preds w.
Proof.
  cbv zeta. intros Htb. apply tie_break64_in in Htb.
  apply in_winners_of64 in Htb; [|apply count_votes64_NoDup].
  destruct Htb as [s' [Hget Hs']].
  apply count_votes64_score in Hget. destruct Hget as [Hp ->].
  split; [exact Hp|]. split; [exact Hs'|].
  apply count_votes64_vget. apply Hp.
Qed.

(** The fallback finds a voter of the winner, whose prediction is the winner
    again. *)
Lemma lowconf_fallback64_same (W : weights) (preds : dict pred) (prio : list string)
    (v : dict (list (string * float))) (w : string) :
  NoDup (keys preds) ->
  predicted preds w ->
  vget v w = votes_for W preds w ->
  exists best_clf,
    In (best_clf, Some w) preds
    /\ (forall clf, In (clf, Some w) preds ->
                    flt (wget W (Some w) best_clf) (wget W (Some w) clf) = false)
    /\ lowconf_fallback W preds prio v w = Ret (Some w, class_score W preds w).
Proof.
  intros Hnd Hp Hv. unfold lowconf_fallback. rewrite Hv.
  apply (predicted_votes64 W) in Hp. destruct Hp as [_ Hne].
  destruct (votes_for W preds w) as [|vt vs] eqn:Ev; [congruence|].
  set (b := fmax_by snd vt vs).
  assert (Hb : In b (votes_for W preds w)).
  { rewrite Ev. apply fmax_by_in. }
  assert (Hmax : forall y, In y (votes_for W preds w) -> flt (snd b) (snd y) = false).
  { intros y Hy. rewrite Ev in Hy. apply (fmax_by_ub snd vt vs y Hy). }
  unfold votes_for in Hb. apply in_map_iff in Hb.
  destruct Hb as [clf [Hclf Hin]]. apply in_predictors in Hin.
  assert (Hget : dget preds (fst b) = Some (Some w)).
  { rewrite <- Hclf. cbn [fst]. apply in_NoDup_dget; assumption. }
  exists (fst b). split; [rewrite <- Hclf; exact Hin|]. split.
  - intros clf' Hin'. specialize (Hmax (clf', wget W (Some w) clf')).
    rewrite <- Hclf in Hmax |- *. cbn [snd fst] in *. apply Hmax.
    unfold votes_for. apply in_map_iff. exists clf'. split; [reflexivity|].
    apply in_predictors, Hin'.
  - cbn [bind]. rewrite Hget. unfold class_score.
    rewrite predictors_predicting. unfold predicting. rewrite map_map. reflexivity.
Qed.

(** The function in closed form: the label is the class of the tie-break, the
    sources are its predictors, and the fallback only replaces the best
    score by the winner's own score. *)
Lemma pick_ensemble_label64_cases (preds : dict pred) (W : weights) (prio : list string)
    (use_lowconf : bool) (tau : float) :
  NoDup (keys preds) ->
  pick_ensemble_label preds W prio use_lowconf tau =
  let t := count_votes W preds in
  match values (score t) with
  | [] => Ret (None, [], zero)
  | s :: ss =>
      w <- tie_break (voters_by_class t) prio (winners_of (score t) (fmax_from s ss)) ;;
      Ret (Some w, sources preds prio (Some w),
           if use_lowconf && flt (fmax_from s ss) tau
           then class_score W preds w
           else fmax_from s ss)
  end.
Proof.
  intro Hnd. unfold pick_ensemble_label. cbv zeta.
  destruct (values (score (count_votes W preds))) as [|s ss] eqn:Hv; [reflexivity|].
  destruct (tie_break _ prio _) as [w|] eqn:Htb; [|reflexivity].
  cbn [bind].
  destruct (use_lowconf && flt (fmax_from s ss) tau); [|reflexivity].
  destruct (tie_break64_winner W preds prio _ w Htb) as [Hp [_ Hvg]].
  destruct (lowconf_fallback64_same W preds prio _ w Hnd Hp Hvg) as [b [_ [_ Hlc]]].
  rewrite Hlc. reflexivity.
Qed.

(** The plain call, which needs no lookup in [preds]. *)
Lemma pick_ensemble_label64_plain (preds : dict pred) (W : weights) (prio : list string)
    (tau : float) :
  pick_ensemble_label preds W prio false tau =
  let t := count_votes W preds in
  match values (score t) with
  | [] => Ret (None, [], zero)
  | s :: ss =>
      w <- tie_break (voters_by_class t) prio (winners_of (score t) (fmax_from s ss)) ;;
      Ret (Some w, sources preds prio (Some w), fmax_from s ss)
  end.
Proof.
  unfold pick_ensemble_label. cbv zeta.
  destruct (values (score (count_votes W preds))) as [|s ss] eqn:Hv; [reflexivity|].
  destruct (tie_break _ prio _) as [w|] eqn:Htb; reflexivity.
Qed.

(** The best score is the score of a predicted class, and the score of no
    predicted class compares greater. *)
Lemma best_score64 (preds : dict pred) (W : weights) (s : float) (ss : list float) :
  values (score (count_votes W preds)) = s :: ss ->
  (exists c, predicted preds c /\ fmax_from s ss = class_score W preds c)
  /\ (forall c, predicted preds c -> flt (fmax_from s ss) (class_score W preds c) = false).
Proof.
  intro Hv. split.
  - pose proof (fmax_from_in s ss) as Hin. rewrite <- Hv in Hin.
    unfold values in Hin. apply in_map_iff in Hin.
    destruct Hin as [[c m] [Hm Hin]]. cbn [snd] in Hm. subst m.
    apply in_NoDup_dget in Hin; [|apply count_votes64_NoDup].
    apply count_votes64_score in Hin. exists c. exact Hin.
  - intros c Hp. apply fmax_from_ub. rewrite <- Hv.
    apply (count_votes64_predicted W) in Hp. apply dget_Some_in in Hp.
    unfold values. apply in_map_iff. exists (c, class_score W preds c).
    split; [reflexivity|exact Hp].
Qed.

Lemma scores_finite_predicted (W : weights) (preds : dict pred) (c : string) :
  scores_finite W preds = true -> predicted preds c ->
  is_finite (class_score W preds c) = true.
Proof.
  intros H [_ [clf Hin]]. unfold scores_finite in H. rewrite forallb_forall in H.
  apply (H _ Hin).
Qed.

(** With weights that are not negative and finite scores the call returns
    a label whenever a class is predicted. *)
Lemma pick_ensemble_label64_returns (preds : dict pred) (W : weights) (prio : list string)
    (tau : float) (c : string) :
  weights_nonneg W = true -> scores_finite W preds = true -> predicted preds c ->
  exists w src m, pick_ensemble_label preds W prio false tau = Ret (Some w, src, m).
Proof.
  intros HW Hfin Hp. rewrite pick_ensemble_label64_plain. cbv zeta.
  destruct (values (score (count_votes W preds))) as [|s ss] eqn:Hv.
  - exfalso. destruct Hp as [Hc [clf Hin]].
    pose proof (no_score64_no_prediction preds W Hv clf (Some c) Hin) as Ht.
    cbn [truthy] in Ht. apply negb_false_iff, String.eqb_eq in Ht. contradiction.
  - destruct (best_score64 preds W s ss Hv) as [[c0 [Hp0 Hm]] _].
    assert (Hmfin : is_finite (fmax_from s ss) = true).
    { rewrite Hm. apply scores_finite_predicted; assumption. }
    destruct (winners_of64_max _ s ss Hv Hmfin) as [c1 [_ Hin1]].
    destruct (tie_break64_ret (voters_by_class (count_votes W preds)) prio
                (winners_of (score (count_votes W preds)) (fmax_from s ss))) as [w Htb].
    + intro E. rewrite E in Hin1. exact Hin1.
    + intros c' _. apply top_single64_nonneg, HW.
    + rewrite Htb. eexists _, _, _. reflexivity.
Qed.

(** * The weighted vote in double arithmetic *)

(** C1.  The score [pick_ensemble_label] keeps for a class is the sum of the
    weights the table holds for that class and the classifiers whose
    non-empty prediction is that class (zero where the table holds none),
    added in the order of [preds]; only predicted classes have a score.  A
    returned label is a predicted class whose score is within [1e-12] of
    the best score [m] by the test of the code, [m] is the score of a
    predicted class and no predicted class has a score that compares
    greater.  The returned score is [m], or the score of the label when the
    fallback applies.  The label is [None] only when nothing is predicted;
    with weights that are not negative and finite scores the call returns.
    The tolerance is the double nearest to [1e-12]. *)
Theorem pick_ensemble_label_weighted_vote
    (preds : dict pred) (W : weights) (prio : list string) (use_lowconf : bool) (tau : float) :
  NoDup (keys preds) ->
  well_keyed W = true ->
  (forall c s, dget (score (count_votes W preds)) c = Some s
               <-> predicted preds c /\ is_score W preds c s)
  /\ (forall w src sc,
        pick_ensemble_label preds W prio use_lowconf tau = Ret (Some w, src, sc) ->
        predicted preds w
        /\ exists m s,
             (exists c, predicted preds c /\ is_score W preds c m)
             /\ (forall c s', predicted preds c -> is_score W preds c s' -> flt m s' = false)
             /\ is_score W preds w s
             /\ flt (fabs (fsub s m)) score_tol = true
             /\ sc = (if use_lowconf && flt m tau then s else m))
  /\ (forall src sc,
        pick_ensemble_label preds W prio use_lowconf tau = Ret (None, src, sc) ->
        forall c, ~ predicted preds c)
  /\ (weights_nonneg W = true -> scores_finite W preds = true ->
      forall c, predicted preds c ->
      exists w src sc, pick_ensemble_label preds W prio use_lowconf tau = Ret (Some w, src, sc))
  /\ reads_as (1 # 1000000000000) score_tol = true.
Proof.
  intros Hnd HW. split; [|split; [|split; [|split; [|vm_compute; reflexivity]]]].
  - intros c s. rewrite (is_score_class_score W preds c s HW). split.
    + apply count_votes64_score.
    + intros [Hp ->]. apply count_votes64_predicted, Hp.
  - intros w src sc. rewrite pick_ensemble_label64_cases by exact Hnd. cbv zeta.
    destruct (values (score (count_votes W preds))) as [|s0 ss] eqn:Hv; [discriminate|].
    destruct (tie_break _ prio _) as [w'|] eqn:Htb; [|discriminate].
    cbn [bind]. intro H. injection H as -> <- <-.
    destruct (tie_break64_winner W preds prio _ w Htb) as [Hp [Hnear _]].
    destruct (best_score64 preds W s0 ss Hv) as [[c0 [Hp0 Hm]] Hub].
    split; [exact Hp|].
    exists (fmax_from s0 ss), (class_score W preds w).
    split; [exists c0; split; [exact Hp0|apply is_score_class_score; assumption]|].
    split; [|split; [apply is_score_class_score; [exact HW|reflexivity]|split;
                     [exact Hnear|reflexivity]]].
    intros c s' Hpc Hs'. apply is_score_class_score in Hs'; [|exact HW]. subst s'.
    apply Hub, Hpc.
  - intros src sc. rewrite pick_ensemble_label64_cases by exact Hnd. cbv zeta.
    destruct (values (score (count_votes W preds))) as [|s0 ss] eqn:Hv.
    + intros _ c [Hc [clf Hin]].
      pose proof (no_score64_no_prediction preds W Hv clf (Some c) Hin) as Ht.
      cbn [truthy] in Ht. apply negb_false_iff, String.eqb_eq in Ht. contradiction.
    + destruct (tie_break _ prio _) as [w'|]; discriminate.
  - intros Hpos Hfin c Hp.
    destruct (pick_ensemble_label64_returns preds W prio tau c Hpos Hfin Hp)
      as [w [src [m Hret]]].
    rewrite pick_ensemble_label64_cases by exact Hnd.
    rewrite pick_ensemble_label64_plain in Hret. cbv zeta in Hret |- *.
    destruct (values (score (count_votes W preds))) as [|s0 ss]; [discriminate|].
    destruct (tie_break _ prio _) as [w'|]; [|discriminate].
    cbn [bind]. eexists _, _, _. reflexivity.
Qed.

(** Two classifiers vote RIDGE with 0.25 each and one votes FAN with
    0.5 - 2^-44: the scores tie within the tolerance, FAN has the heavier
    vote, and the returned score is the best score 0.5, that of RIDGE. *)
Lemma pick_ensemble_label_weighted_vote_witness :
  NoDup (keys sample_preds)
  /\ well_keyed sample_W = true
  /\ pick_ensemble_label sample_preds sample_W CLF_PRIORITY false TAU
     = Ret (Some "FAN"%string, ["SVMv11A2D50"%string], S754_finite false 4503599627370496 (-53))
  /\ predicted sample_preds "FAN"
  /\ exists m s,
       (exists c, predicted sample_preds c /\ is_score sample_W sample_preds c m)
       /\ (forall c s', predicted sample_preds c -> is_score sample_W sample_preds c s' ->
                        flt m s' = false)
       /\ is_score sample_W sample_preds "FAN" s
       /\ flt (fabs (fsub s m)) score_tol = true
       /\ S754_finite false 4503599627370496 (-53) = (if false && flt m TAU then s else m).
Proof.
  assert (Hnd : NoDup (keys sample_preds)) by (apply distinct_NoDup; reflexivity).
  assert (HW : well_keyed sample_W = true) by reflexivity.
  assert (Hret : pick_ensemble_label sample_preds sample_W CLF_PRIORITY false TAU
                 = Ret (Some "FAN"%string, ["SVMv11A2D50"%string],
                        S754_finite false 4503599627370496 (-53))) by (vm_compute; reflexivity).
  split; [exact Hnd|]. split; [exact HW|]. split; [exact Hret|].
  exact (proj1 (proj2 (pick_ensemble_label_weighted_vote
                         sample_preds sample_W CLF_PRIORITY false TAU Hnd HW)) _ _ _ Hret).
Defined.

(** C2 (a defect of the scan for the heaviest vote).  RIDGE has one voter
    of weight [2^-8] and FAN one voter whose weight is larger by
    [1153 * 2^-60], which is more than [1e-15].  The two scores tie within
    [1e-12].  FAN has the heavier single vote, the two votes are not within
    [1e-15] of each other by the test of the code, and the voter of FAN comes
    earlier in the priority order; yet the call returns RIDGE: the sum
    [best_w + 1e-15] rounds to the weight of FAN, so the scan neither
    replaces RIDGE by FAN nor keeps FAN beside it. *)
Theorem pick_ensemble_label_drops_heavier_vote :
  pick_ensemble_label gap_preds gap_W CLF_PRIORITY false TAU
    = Ret (Some "RIDGE"%string, ["RTv11A2D50"%string], f_heavy)
  /\ pick_ensemble_label gap_preds gap_W CLF_PRIORITY true TAU
    = Ret (Some "RIDGE"%string, ["RTv11A2D50"%string], f_light)
  /\ predictors gap_preds "RIDGE" = ["RTv11A2D50"%string]
  /\ predictors gap_preds "FAN" = ["RTv11A2D60"%string]
  /\ has_weight gap_W "RIDGE" "RTv11A2D50" f_light
  /\ has_weight gap_W "FAN" "RTv11A2D60" f_heavy
  /\ is_score gap_W gap_preds "RIDGE" f_light
  /\ is_score gap_W gap_preds "FAN" f_heavy
  /\ flt (fabs (fsub f_light f_heavy)) score_tol = true
  /\ flt f_light f_heavy = true
  /\ fle (fabs (fsub f_heavy f_light)) single_tol = false
  /\ (1 # 1000000000000000 < B2Q f_heavy - B2Q f_light)%Q
  /\ fadd f_light single_tol = f_heavy
  /\ index CLF_PRIORITY "RTv11A2D60" = Some 1%nat
  /\ index CLF_PRIORITY "RTv11A2D50" = Some 3%nat
  /\ reads_as (1 # 1000000000000) score_tol = true
  /\ reads_as (1 # 1000000000000000) single_tol = true.
Proof.
  assert (HW : well_keyed gap_W = true) by reflexivity.
  split; [vm_compute; reflexivity|].
  split; [vm_compute; reflexivity|].
  split; [reflexivity|]. split; [reflexivity|].
  split; [apply (wget_has_weight gap_W "RIDGE" "RTv11A2D50" HW)|].
  split; [apply (wget_has_weight gap_W "FAN" "RTv11A2D60" HW)|].
  split; [apply is_score_class_score; [exact HW|vm_compute; reflexivity]|].
  split; [apply is_score_class_score; [exact HW|vm_compute; reflexivity]|].
  split; [vm_compute; reflexivity|].
  split; [vm_compute; reflexivity|].
  split; [vm_compute; reflexivity|].
  split; [vm_compute; reflexivity|].
  split; [vm_compute; reflexivity|].
  split; [reflexivity|]. split; [reflexivity|].
  split; vm_compute; reflexivity.
Qed.

(** The score the fallback recomputes for a label that is a class. *)
Lemma recomputed_score (W : weights) (preds : dict pred) (c : string) :
  fsum (map (fun it => wget W (Some c) (fst it))
            (filter (fun it => pred_eqb (snd it) (Some c)) preds))
  = class_score W preds c.
Proof.
  unfold class_score. rewrite predictors_predicting. unfold predicting.
  rewrite map_map. reflexivity.
Qed.

(** C3.  Let the call without the fallback return the class [w] with the
    best score [m].  When [m < tau], the call with the fallback takes the
    voter [best] of [w] than which no voter of [w] has a weight that
    compares greater, and returns the prediction of [best], which is [w]
    again, with the same sources and, as score, the sum of the weights the
    table holds for [w] and the classifiers predicting [w].  When [m < tau]
    fails the two calls return the same.  Where a class has no voters, the
    body of the fallback takes the prediction of the first classifier of the
    priority order, or keeps the class when [preds] has no such key, with
    the sum of the weights of the predictors of that label; it raises when
    the priority order is empty.  The constant [TAU] is the double nearest
    to 0.55. *)
Theorem pick_ensemble_label_lowconf
    (preds : dict pred) (W : weights) (prio : list string) (tau : float)
    (w : string) (src0 : list string) (m : float) :
  NoDup (keys preds) ->
  well_keyed W = true ->
  pick_ensemble_label preds W prio false tau = Ret (Some w, src0, m) ->
  (flt m tau = true ->
   exists best s,
     In (best, Some w) preds
     /\ (forall clf x y, In (clf, Some w) preds ->
                         has_weight W w best x -> has_weight W w clf y -> flt x y = false)
     /\ is_score W preds w s
     /\ (forall clf, In clf src0 <-> In (clf, Some w) preds)
     /\ pick_ensemble_label preds W prio true tau = Ret (Some w, src0, s))
  /\ (flt m tau = false ->
      pick_ensemble_label preds W prio true tau = Ret (Some w, src0, m))
  /\ (forall v c first rest,
        vget v c = [] ->
        (forall c', In (first, Some c') preds ->
           exists s, lowconf_fallback W preds (first :: rest) v c = Ret (Some c', s)
                     /\ is_score W preds c' s)
        /\ (~ In first (keys preds) ->
            exists s, lowconf_fallback W preds (first :: rest) v c = Ret (Some c, s)
                      /\ is_score W preds c s)
        /\ lowconf_fallback W preds [] v c = IndexError)
  /\ reads_as (55 # 100) TAU = true.
Proof.
  intros Hnd HW Hplain.
  pose proof Hplain as Hp0. rewrite pick_ensemble_label64_plain in Hp0. cbv zeta in Hp0.
  destruct (values (score (count_votes W preds))) as [|s0 ss] eqn:Hv; [discriminate|].
  destruct (tie_break _ prio _) as [w'|] eqn:Htb; [|discriminate].
  cbn [bind] in Hp0. injection Hp0 as -> <- <-.
  destruct (tie_break64_winner W preds prio _ w Htb) as [Hp [_ Hvg]].
  destruct (lowconf_fallback64_same W preds prio _ w Hnd Hp Hvg) as [b [Hb [Hbest _]]].
  split; [|split; [|split]].
  - intro Hlt. exists b, (class_score W preds w).
    split; [exact Hb|]. split; [|split; [|split]].
    + intros clf x y Hin Hx Hy.
      rewrite (has_weight_wget W w b x HW Hx), (has_weight_wget W w clf y HW Hy).
      apply Hbest, Hin.
    + apply is_score_class_score; [exact HW|reflexivity].
    + intro clf. apply in_sources.
    + rewrite pick_ensemble_label64_cases by exact Hnd. cbv zeta.
      rewrite Hv, Htb. cbn [bind andb]. rewrite Hlt. reflexivity.
  - intro Hge. rewrite pick_ensemble_label64_cases by exact Hnd. cbv zeta.
    rewrite Hv, Htb. cbn [bind andb]. rewrite Hge. reflexivity.
  - intros v c first rest Hvc. split; [|split].
    + intros c' Hin. exists (class_score W preds c').
      split; [|apply is_score_class_score; [exact HW|reflexivity]].
      unfold lowconf_fallback. rewrite Hvc. cbn [item0 bind].
      rewrite (in_NoDup_dget preds first (Some c') Hnd Hin).
      rewrite recomputed_score. reflexivity.
    + intro Hno. exists (class_score W preds c).
      split; [|apply is_score_class_score; [exact HW|reflexivity]].
      unfold lowconf_fallback. rewrite Hvc. cbn [item0 bind].
      apply dget_None_notin in Hno. rewrite Hno.
      rewrite recomputed_score. reflexivity.
    + unfold lowconf_fallback. rewrite Hvc. reflexivity.
  - vm_compute. reflexivity.
Qed.

(** The sample vote: the best score 0.5 is below 0.55, the voter of FAN is
    its best voter, and the score becomes the score of FAN, 0.5 - 2^-44. *)
Lemma pick_ensemble_label_lowconf_witness :
  NoDup (keys sample_preds)
  /\ well_keyed sample_W = true
  /\ pick_ensemble_label sample_preds sample_W CLF_PRIORITY false TAU
     = Ret (Some "FAN"%string, ["SVMv11A2D50"%string], S754_finite false 4503599627370496 (-53))
  /\ flt (S754_finite false 4503599627370496 (-53)) TAU = true
  /\ pick_ensemble_label sample_preds sample_W CLF_PRIORITY true TAU
     = Ret (Some "FAN"%string, ["SVMv11A2D50"%string], S754_finite false 9007199254739968 (-54))
  /\ exists best s,
       In (best, Some "FAN"%string) sample_preds
       /\ (forall clf x y, In (clf, Some "FAN"%string) sample_preds ->
                           has_weight sample_W "FAN" best x ->
                           has_weight sample_W "FAN" clf y -> flt x y = false)
       /\ is_score sample_W sample_preds "FAN" s
       /\ (forall clf, In clf ["SVMv11A2D50"%string]
                       <-> In (clf, Some "FAN"%string) sample_preds)
       /\ pick_ensemble_label sample_preds sample_W CLF_PRIORITY true TAU
          = Ret (Some "FAN"%string, ["SVMv11A2D50"%string], s).
Proof.
  assert (Hnd : NoDup (keys sample_preds)) by (apply distinct_NoDup; reflexivity).
  assert (HW : well_keyed sample_W = true) by reflexivity.
  assert (Hret : pick_ensemble_label sample_preds sample_W CLF_PRIORITY false TAU
                 = Ret (Some "FAN"%string, ["SVMv11A2D50"%string],
                        S754_finite false 4503599627370496 (-53))) by (vm_compute; reflexivity).
  assert (Hlt : flt (S754_finite false 4503599627370496 (-53)) TAU = true)
    by (vm_compute; reflexivity).
  split; [exact Hnd|]. split; [exact HW|]. split; [exact Hret|]. split; [exact Hlt|].
  split; [vm_compute; reflexivity|].
  exact (proj1 (pick_ensemble_label_lowconf
                  sample_preds sample_W CLF_PRIORITY TAU _ _ _ Hnd HW Hret) Hlt).
Defined.

(** * The weight tables in double arithmetic *)











(** * Further properties of the vote in double arithmetic *)

(** Nothing is within the tolerance of an infinite or NaN best score. *)
Lemma near_not_finite (s m : float) :
  is_finite m = false -> flt (fabs (fsub s m)) score_tol = false.
Proof.
  destruct m as [b|b| |b mm e]; try discriminate; intros _.
  - destruct s as [b'|b'| |b' ms es]; destruct b; try destruct b'; reflexivity.
  - destruct s as [b'|b'| |b' ms es]; reflexivity.
Qed.

Lemma winners_of64_not_finite (sc : dict float) (m : float) :
  is_finite m = false -> winners_of sc m = [].
Proof.
  intro H. unfold winners_of. induction sc as [|[c s] sc IH]; [reflexivity|].
  cbn [filter snd]. rewrite (near_not_finite s m H). exact IH.
Qed.

Lemma winners_of64_single (sc : dict float) (m : float) (c : string) (s : float) :
  NoDup (keys sc) ->
  In (c, s) sc ->
  flt (fabs (fsub s m)) score_tol = true ->
  (forall c' s', In (c', s') sc -> c' <> c -> flt (fabs (fsub s' m)) score_tol = false) ->
  winners_of sc m = [c].
Proof.
  unfold winners_of. induction sc as [|[k x] sc IH]; intros Hnd Hin Hnear Hoth; [destruct Hin|].
  cbn [keys map fst] in Hnd. inversion Hnd as [|k' ks Hk Hnd']. subst k' ks.
  cbn [filter snd]. destruct Hin as [E|Hin].
  - injection E as -> ->. rewrite Hnear. cbn [map fst]. f_equal.
    assert (Hnil : forall l, (forall c' s', In (c', s') l -> In (c', s') sc) ->
                     map fst (filter (fun cs => flt (fabs (fsub (snd cs) m)) score_tol) l) = []).
    { induction l as [|[c' s'] l IHl]; intro Hsub; [reflexivity|].
      cbn [filter snd].
      assert (Hne : c' <> c).
      { intros ->. apply Hk. unfold keys. apply in_map_iff. exists (c, s').
        split; [reflexivity|apply Hsub; left; reflexivity]. }
      rewrite (Hoth c' s'); [|right; apply Hsub; left; reflexivity|exact Hne].
      apply IHl. intros c2 s2 H2. apply Hsub. right. exact H2. }
    apply Hnil. auto.
  - assert (Hne : k <> c).
    { intros ->. apply Hk. unfold keys. apply in_map_iff. exists (c, s).
      split; [reflexivity|exact Hin]. }
    rewrite (Hoth k x); [|left; reflexivity|exact Hne].
    apply IH; [exact Hnd'|exact Hin|exact Hnear|].
    intros c' s' H' Hc'. apply (Hoth c' s'); [right; exact H'|exact Hc'].
Qed.

(** A class whose finite score is above the score of every other predicted
    class, and not within the tolerance of any, is returned with its
    score. *)
Lemma clear_winner64 (preds : dict pred) (W : weights) (prio : list string)
    (use_lowconf : bool) (tau : float) (c : string) :
  NoDup (keys preds) ->
  predicted preds c ->
  is_finite (class_score W preds c) = true ->
  (forall c', predicted preds c' -> c' <> c ->
     flt (class_score W preds c') (class_score W preds c) = true
     /\ flt (fabs (fsub (class_score W preds c') (class_score W preds c))) score_tol = false) ->
  pick_ensemble_label preds W prio use_lowconf tau
  = Ret (Some c, sources preds prio (Some c), class_score W preds c).
Proof.
  intros Hnd Hp Hfin Hoth. rewrite pick_ensemble_label64_cases by exact Hnd. cbv zeta.
  pose proof (count_votes64_predicted W preds c Hp) as Hget.
  destruct (values (score (count_votes W preds))) as [|s0 ss] eqn:Hv.
  { destruct (score (count_votes W preds)); discriminate. }
  destruct (best_score64 preds W s0 ss Hv) as [[c0 [Hp0 Hm]] Hub].
  assert (Hmc : fmax_from s0 ss = class_score W preds c).
  { destruct (string_dec c0 c) as [->|Hne]; [exact Hm|].
    destruct (Hoth c0 Hp0 Hne) as [Hlt _]. rewrite <- Hm in Hlt.
    rewrite (Hub c Hp) in Hlt. discriminate. }
  rewrite Hmc.
  rewrite (winners_of64_single (score (count_votes W preds)) _ c (class_score W preds c)).
  - cbn [tie_break bind]. destruct (use_lowconf && _); reflexivity.
  - apply count_votes64_NoDup.
  - apply dget_Some_in, Hget.
  - apply near_self, Hfin.
  - intros c' s' Hin Hne.
    apply in_NoDup_dget in Hin; [|apply count_votes64_NoDup].
    apply count_votes64_score in Hin. destruct Hin as [Hp' ->].
    apply (Hoth c' Hp' Hne).
Qed.

(** When no predicted class has a finite score the call raises. *)
Lemma not_finite64_raises (preds : dict pred) (W : weights) (prio : list string)
    (use_lowconf : bool) (tau : float) (c : string) :
  predicted preds c ->
  (forall c', predicted preds c' -> is_finite (class_score W preds c') = false) ->
  pick_ensemble_label preds W prio use_lowconf tau = IndexError.
Proof.
  intros Hp Hinf. unfold pick_ensemble_label. cbv zeta.
  pose proof (count_votes64_predicted W preds c Hp) as Hget.
  destruct (values (score (count_votes W preds))) as [|s0 ss] eqn:Hv.
  { destruct (score (count_votes W preds)); discriminate. }
  destruct (best_score64 preds W s0 ss Hv) as [[c0 [Hp0 Hm]] _].
  rewrite winners_of64_not_finite; [reflexivity|].
  rewrite Hm. apply Hinf, Hp0.
Qed.



(** X4.  When every non-empty prediction is the class [c], the call
    returns [c] with its predictors as sources and its score when that score
    is finite, and raises [IndexError] when the score is infinite or NaN:
    no class is then within the tolerance of the best score. *)
Theorem pick_ensemble_label_unanimous
    (preds : dict pred) (W : weights) (prio : list string) (use_lowconf : bool)
    (tau : float) (c : string) (s : float) :
  NoDup (keys preds) ->
  well_keyed W = true ->
  predicted preds c ->
  (forall clf p, In (clf, p) preds -> truthy p = true -> p = Some c) ->
  is_score W preds c s ->
  pick_ensemble_label preds W prio use_lowconf tau
  = if is_finite s then Ret (Some c, sources preds prio (Some c), s) else IndexError.
Proof.
  intros Hnd HW Hp Hall Hs.
  apply is_score_class_score in Hs; [|exact HW]. subst s.
  assert (Hone : forall c', predicted preds c' -> c' = c).
  { intros c' [Hc' [clf Hin]]. apply Hall in Hin.
    - injection Hin as ->. reflexivity.
    - cbn [truthy]. apply negb_true_iff, String.eqb_neq, Hc'. }
  destruct (is_finite (class_score W preds c)) eqn:Hfin.
  - apply clear_winner64; try assumption.
    intros c' Hp' Hne. exfalso. apply Hne, Hone, Hp'.
  - apply (not_finite64_raises preds W prio use_lowconf tau c Hp).
    intros c' Hp'. rewrite (Hone c' Hp'). exact Hfin.
Qed.

(** Both classifiers of the row predict RIDGE, with 0.25 each. *)
Lemma pick_ensemble_label_unanimous_witness :
  pick_ensemble_label [("RTv11A2D60", Some "RIDGE"); ("SVMv11A2D60", Some "RIDGE")]%string
    sample_W CLF_PRIORITY true TAU
  = Ret (Some "RIDGE"%string, ["SVMv11A2D60"; "RTv11A2D60"]%string,
         S754_finite false 4503599627370496 (-53)).
Proof.
  assert (HW : well_keyed sample_W = true) by reflexivity.
  apply (pick_ensemble_label_unanimous
           [("RTv11A2D60", Some "RIDGE"); ("SVMv11A2D60", Some "RIDGE")]%string
           sample_W CLF_PRIORITY true TAU "RIDGE"
           (S754_finite false 4503599627370496 (-53))).
  - apply distinct_NoDup. reflexivity.
  - exact HW.
  - split; [discriminate|]. exists "RTv11A2D60"%string. left. reflexivity.
  - intros clf p [E|[E|[]]] _; injection E as _ <-; reflexivity.
  - apply is_score_class_score; [exact HW|vm_compute; reflexivity].
Defined.

(** X17.  When something is predicted and the score of every predicted
    class is infinite or NaN, the call raises [IndexError]: the list of
    winners is empty, so is the list of candidates, and [ranked[0]] fails. *)
Theorem pick_ensemble_label_not_finite_raises
    (preds : dict pred) (W : weights) (prio : list string) (use_lowconf : bool)
    (tau : float) (c : string) :
  well_keyed W = true ->
  predicted preds c ->
  (forall c' s, predicted preds c' -> is_score W preds c' s -> is_finite s = false) ->
  pick_ensemble_label preds W prio use_lowconf tau = IndexError.
Proof.
  intros HW Hp Hinf. apply (not_finite64_raises preds W prio use_lowconf tau c Hp).
  intros c' Hp'. apply (Hinf c' _ Hp').
  apply is_score_class_score; [exact HW|reflexivity].
Qed.

(** The weights an infinite IoU leaves: the one vote for RIDGE weighs NaN. *)
Lemma pick_ensemble_label_not_finite_raises_witness :
  normalize_per_class no_pow inf_raw WEIGHT_POWER = Some nan_W
  /\ pick_ensemble_label [("RTv11A2D50", Some "RIDGE")]%string nan_W CLF_PRIORITY true TAU
     = IndexError.
Proof.
  assert (HW : well_keyed nan_W = true) by reflexivity.
  split; [vm_compute; reflexivity|].
  apply (pick_ensemble_label_not_finite_raises
           [("RTv11A2D50", Some "RIDGE")]%string nan_W CLF_PRIORITY true TAU "RIDGE" HW).
  - split; [discriminate|]. exists "RTv11A2D50"%string. left. reflexivity.
  - intros c' s [_ [clf [E|[]]]] Hs. injection E as _ <-.
    apply is_score_class_score in Hs; [|exact HW]. subst s. vm_compute. reflexivity.
Defined.
